(** * textedit: line differ, change store and AI provider gateway

    A shallow embedding of
      - client/src/lib/diff-utils.ts   (generateDiff, diffToChanges, applyChanges)
      - server/storage.ts              (MemStorage)
      - server/ai-providers.ts         (parseAIResponseJSON, getAIResponse)
      - server/ai-services-enhanced.ts (getAIResponse, multiProviderConsensus)
      - registerRoutes                 (PATCH /api/changes/:id/status,
                                        POST /api/documents/:id/ai-edit)

    Conventions.  A JavaScript string is a [string] whose characters are code
    units below 256.  A value of type [string | undefined] is an
    [option string]; [===] on such values is decidable equality.  Array
    reads [a[i]] are [a !! i] (out of range reads give [undefined], that is
    [None]).  Store ids and line numbers are integers ([Z] or [nat]); the
    saturation of IEEE doubles above 2^53 is outside the model. *)

From Stdlib Require Import ZArith QArith Ascii String List Lia Bool.
From stdpp Require Import base option list gmap strings pretty sorting.

Local Open Scope string_scope.
Local Open Scope nat_scope.
Local Open Scope list_scope.

(** ** Strings: [split('\n')] and [join('\n')] *)

Module Str.

Definition newline : ascii := "010"%char.

(** [s.split('\n')]: always at least one line; the empty string is one empty line. *)
Fixpoint split (s : string) : list string :=
  match s with
  | EmptyString => [""]
  | String c s' =>
      if Ascii.eqb c newline then "" :: split s'
      else match split s' with
           | l :: ls => String c l :: ls
           | [] => [String c ""]
           end
  end.

(** [lines.join('\n')]. *)
Fixpoint join (ls : list string) : string :=
  match ls with
  | [] => ""
  | [l] => l
  | l :: ls' => l +:+ String newline (join ls')
  end.


(** [\s] on code units below 256: tab, line feed, vertical tab, form feed,
    carriage return, space and no-break space. *)
Definition is_space (c : ascii) : bool :=
  let n := nat_of_ascii c in
  (9 <=? n) && (n <=? 13) || (n =? 32) || (n =? 160).

Fixpoint all_space (s : string) : bool :=
  match s with
  | EmptyString => true
  | String c s' => is_space c && all_space s'
  end.

Fixpoint skip_space (s : string) : string :=
  match s with
  | EmptyString => EmptyString
  | String c s' => if is_space c then skip_space s' else s
  end.

Fixpoint drop_chars (n : nat) (s : string) : string :=
  match n, s with
  | O, _ => s
  | S n', String _ s' => drop_chars n' s'
  | S _, EmptyString => EmptyString
  end.

Definition fence_open : string := "```json".
Definition fence_close : string := "```".

(** A match of the second alternative, [```\s*$], at the start of [s]. *)
Definition closes_here (s : string) : bool :=
  String.prefix fence_close s && all_space (drop_chars 3 s).

(** The leftmost match of [```\s*$] is removed; it runs to the end. *)
Fixpoint cut_close (s : string) : string :=
  match s with
  | EmptyString => EmptyString
  | String c s' => if closes_here s then EmptyString else String c (cut_close s')
  end.

(** [responseText.replace(/^```json\s*|```\s*$/g, '')].  The first
    alternative can only match at position 0; after it the scan goes on
    behind the match, where only the second alternative can match. *)
Definition strip_fence (responseText : string) : string :=
  if String.prefix fence_open responseText
  then cut_close (skip_space (drop_chars 7 responseText))
  else cut_close responseText.

(** No whitespace at the start. *)
Definition starts_clean (s : string) : bool :=
  match s with
  | EmptyString => true
  | String c _ => negb (is_space c)
  end.

End Str.

(** ** The line differ (client/src/lib/diff-utils.ts) *)

Inductive DiffType := T_equal | T_insert | T_delete | T_replace.

#[global] Instance DiffType_eq_dec : EqDecision DiffType.
Proof. solve_decision. Defined.

Module DiffLine.
Record t := mk {
    type : DiffType;
    originalIndex : option nat;
    modifiedIndex : option nat;
    content : option string;
    originalContent : option string;
  }.
End DiffLine.

#[global] Instance DiffLine_eq_dec : EqDecision DiffLine.t.
Proof. solve_decision. Defined.

(** Truthiness of a value of type [string | undefined]. *)
Definition truthy_string (s : option string) : bool :=
  match s with
  | Some (String _ _) => true
  | _ => false
  end.

(** The client-side [Change] of shared/schema.ts. *)
Inductive ChangeType := addition | deletion | modification.
Inductive Status := pending | accepted | rejected.

#[global] Instance ChangeType_eq_dec : EqDecision ChangeType.
Proof. solve_decision. Defined.
#[global] Instance Status_eq_dec : EqDecision Status.
Proof. solve_decision. Defined.

Module Change.
Record t := mk {
  id : string;
  type : ChangeType;
  lineNumber : Z;
  content : option string;
  originalContent : option string;
  status : Status;
}.
End Change.

Module Differ.

(** The four object literals pushed by [generateDiff]. *)
Definition insert_entry (modifiedIndex : nat) (modifiedLine : option string) : DiffLine.t :=
  DiffLine.mk T_insert None (Some modifiedIndex) modifiedLine None.

Definition delete_entry (originalIndex : nat) (originalLine : option string) : DiffLine.t :=
  DiffLine.mk T_delete (Some originalIndex) None originalLine None.

Definition equal_entry (originalIndex modifiedIndex : nat) (originalLine : option string) : DiffLine.t :=
  DiffLine.mk T_equal (Some originalIndex) (Some modifiedIndex) originalLine None.

Definition replace_entry (originalIndex modifiedIndex : nat)
    (modifiedLine originalLine : option string) : DiffLine.t :=
  DiffLine.mk T_replace (Some originalIndex) (Some modifiedIndex) modifiedLine originalLine.

(** The [while] loop of [generateDiff].  [fuel] bounds the number of
    iterations; [None] means the bound was reached before the loop
    condition became false. *)
Fixpoint generateDiff_loop (fuel : nat) (originalLines modifiedLines : list string)
    (originalIndex modifiedIndex : nat) (diff : list DiffLine.t) : option (list DiffLine.t) :=
  if (originalIndex <? length originalLines) || (modifiedIndex <? length modifiedLines) then
    match fuel with
    | O => None
    | S fuel' =>
        let originalLine := originalLines !! originalIndex in
        let modifiedLine := modifiedLines !! modifiedIndex in
        if length originalLines <=? originalIndex then
          generateDiff_loop fuel' originalLines modifiedLines
            originalIndex (S modifiedIndex)
            (diff ++ [insert_entry modifiedIndex modifiedLine])
        else if length modifiedLines <=? modifiedIndex then
          generateDiff_loop fuel' originalLines modifiedLines
            (S originalIndex) modifiedIndex
            (diff ++ [delete_entry originalIndex originalLine])
        else if bool_decide (originalLine = modifiedLine) then
          generateDiff_loop fuel' originalLines modifiedLines
            (S originalIndex) (S modifiedIndex)
            (diff ++ [equal_entry originalIndex modifiedIndex originalLine])
        else
          let nextOriginalLine := originalLines !! (originalIndex + 1) in
          let nextModifiedLine := modifiedLines !! (modifiedIndex + 1) in
          if bool_decide (nextOriginalLine = modifiedLine) then
            generateDiff_loop fuel' originalLines modifiedLines
              (S originalIndex) modifiedIndex
              (diff ++ [delete_entry originalIndex originalLine])
          else if bool_decide (nextModifiedLine = originalLine) then
            generateDiff_loop fuel' originalLines modifiedLines
              originalIndex (S modifiedIndex)
              (diff ++ [insert_entry modifiedIndex modifiedLine])
          else
            generateDiff_loop fuel' originalLines modifiedLines
              (S originalIndex) (S modifiedIndex)
              (diff ++ [replace_entry originalIndex modifiedIndex modifiedLine originalLine])
    end
  else Some diff.

Definition generateDiff (original modified : string) : option (list DiffLine.t) :=
  let originalLines := Str.split original in
  let modifiedLines := Str.split modified in
  generateDiff_loop (length originalLines + length modifiedLines)
    originalLines modifiedLines 0 0 [].

(** Splitting on newline, as the specification words it and without
    reference to [Str.split]: [L] is a line sequence of [s] when it is not
    empty, no line holds a newline, and the lines put together with one
    newline between neighbours are [s]. *)
Definition line_sequence (s : string) (L : list string) : Prop :=
  L ≠ [] ∧
  Forall (λ l, ¬ In "010"%char (list_ascii_of_string l)) L ∧
  String.concat (String "010"%char EmptyString) L = s.

(** The walk as the specification words it: cursors [i], [j] over the line
    sequences [A] and [B], one rule per numbered case, each rule guarded by
    the failure of the cases before it.  Every entry is written out: its
    type, the cursor or cursors that produced it, and the line it is for; a
    replace entry pairs [A[i]] (its original content) with [B[j]] (its
    content). *)
Inductive walk (A B : list string) : nat → nat → list DiffLine.t → Prop :=
  | walk_stop i j :
      length A ≤ i → length B ≤ j →
      walk A B i j []
  | walk_A_exhausted i j b d :
      length A ≤ i → B !! j = Some b →
      walk A B i (S j) d →
      walk A B i j (DiffLine.mk T_insert None (Some j) (Some b) None :: d)
  | walk_B_exhausted i j a d :
      A !! i = Some a → length B ≤ j →
      walk A B (S i) j d →
      walk A B i j (DiffLine.mk T_delete (Some i) None (Some a) None :: d)
  | walk_equal i j a d :
      A !! i = Some a → B !! j = Some a →
      walk A B (S i) (S j) d →
      walk A B i j (DiffLine.mk T_equal (Some i) (Some j) (Some a) None :: d)
  | walk_delete i j a b d :
      A !! i = Some a → B !! j = Some b → a ≠ b →
      A !! (S i) = Some b →
      walk A B (S i) j d →
      walk A B i j (DiffLine.mk T_delete (Some i) None (Some a) None :: d)
  | walk_insert i j a b d :
      A !! i = Some a → B !! j = Some b → a ≠ b →
      A !! (S i) ≠ Some b → B !! (S j) = Some a →
      walk A B i (S j) d →
      walk A B i j (DiffLine.mk T_insert None (Some j) (Some b) None :: d)
  | walk_replace i j a b d :
      A !! i = Some a → B !! j = Some b → a ≠ b →
      A !! (S i) ≠ Some b → B !! (S j) ≠ Some a →
      walk A B (S i) (S j) d →
      walk A B i j (DiffLine.mk T_replace (Some i) (Some j) (Some b) (Some a) :: d).


Section loop_defs.
Context (A B : list string).

  (** One iteration, read off the two array reads at the cursors. *)
Definition loop_body (rec : nat → nat → option (list DiffLine.t)) (i j : nat)
      : option (list DiffLine.t) :=
    match A !! i, B !! j with
    | None, None => Some []
    | None, Some b => (insert_entry j (Some b) ::.) <$> rec i (S j)
    | Some a, None => (delete_entry i (Some a) ::.) <$> rec (S i) j
    | Some a, Some b =>
        if decide (a = b) then (equal_entry i j (Some a) ::.) <$> rec (S i) (S j)
        else if decide (A !! S i = Some b) then (delete_entry i (Some a) ::.) <$> rec (S i) j
        else if decide (B !! S j = Some a) then (insert_entry j (Some b) ::.) <$> rec i (S j)
        else (replace_entry i j (Some b) (Some a) ::.) <$> rec (S i) (S j)
    end.

  (** Remaining work at a cursor position. *)
Definition remaining (i j : nat) : nat := (length A - i) + (length B - j).

End loop_defs.

(** *** The walk on the unread suffixes

    The loop only ever looks at the lines at and after the cursors, so the
    walk can be phrased on the two unread suffixes, with the cursor values
    kept for the indices recorded in the entries. *)
Inductive swalk : nat → nat → list string → list string → list DiffLine.t → Prop :=
  | swalk_nil i j : swalk i j [] [] []
  | swalk_ins_rest i j b B d :
      swalk i (S j) [] B d →
      swalk i j [] (b :: B) (insert_entry j (Some b) :: d)
  | swalk_del_rest i j a A d :
      swalk (S i) j A [] d →
      swalk i j (a :: A) [] (delete_entry i (Some a) :: d)
  | swalk_equal i j a A B d :
      swalk (S i) (S j) A B d →
      swalk i j (a :: A) (a :: B) (equal_entry i j (Some a) :: d)
  | swalk_delete i j a b A B d :
      a ≠ b → head A = Some b →
      swalk (S i) j A (b :: B) d →
      swalk i j (a :: A) (b :: B) (delete_entry i (Some a) :: d)
  | swalk_insert i j a b A B d :
      a ≠ b → head A ≠ Some b → head B = Some a →
      swalk i (S j) (a :: A) B d →
      swalk i j (a :: A) (b :: B) (insert_entry j (Some b) :: d)
  | swalk_replace i j a b A B d :
      a ≠ b → head A ≠ Some b → head B ≠ Some a →
      swalk (S i) (S j) A B d →
      swalk i j (a :: A) (b :: B) (replace_entry i j (Some b) (Some a) :: d).

Fixpoint equal_run (i j : nat) (L : list string) : list DiffLine.t :=
  match L with
  | [] => []
  | l :: L' => equal_entry i j (Some l) :: equal_run (S i) (S j) L'
  end.

Fixpoint insert_run (j : nat) (B : list string) : list DiffLine.t :=
  match B with
  | [] => []
  | b :: B' => insert_entry j (Some b) :: insert_run (S j) B'
  end.

Fixpoint delete_run (i : nat) (A : list string) : list DiffLine.t :=
  match A with
  | [] => []
  | a :: A' => delete_entry i (Some a) :: delete_run (S i) A'
  end.

(** [x || 0] on an optional index. *)
Definition or_zero (x : option nat) : nat := default 0 x.

(** The body of the [forEach] callback of [diffToChanges]; the state is the
    array [changes] and the counter [changeId]. *)
Definition diffToChanges_step (st : list Change.t * nat) (line : DiffLine.t)
    : list Change.t * nat :=
  let '(changes, changeId) := st in
  if bool_decide (DiffLine.type line ≠ T_equal) then
    let push (changeType : ChangeType) (lineNumber : Z) :=
      (changes ++ [Change.mk (pretty changeId) changeType lineNumber
                     (DiffLine.content line) (DiffLine.originalContent line) pending],
       S changeId) in
    match DiffLine.type line with
    | T_insert => push addition (Z.of_nat (or_zero (DiffLine.modifiedIndex line)) + 1)%Z
    | T_delete => push deletion (Z.of_nat (or_zero (DiffLine.originalIndex line)) + 1)%Z
    | T_replace => push modification (Z.of_nat (or_zero (DiffLine.modifiedIndex line)) + 1)%Z
    | T_equal => st
    end
  else st.

Definition diffToChanges (diff : list DiffLine.t) : list Change.t :=
  fst (fold_left diffToChanges_step diff ([], 1)).

(** A 1-based line number as the specification words it: the index of
    the cursor that produced the entry plus one.  An entry that carries no
    such index is numbered 1. *)
Definition numbered (index : option nat) (lineNumber : Z) : Prop :=
  match index with
  | Some k => lineNumber = (Z.of_nat k + 1)%Z
  | None => lineNumber = 1%Z
  end.

(** How the specification words the image of one non-equal entry. *)
Definition change_of (line : DiffLine.t) (c : Change.t) : Prop :=
  Change.status c = pending ∧
  Change.content c = DiffLine.content line ∧
  Change.originalContent c = DiffLine.originalContent line ∧
  match DiffLine.type line with
  | T_equal => False
  | T_insert =>
      Change.type c = addition ∧
      numbered (DiffLine.modifiedIndex line) (Change.lineNumber c)
  | T_delete =>
      Change.type c = deletion ∧
      numbered (DiffLine.originalIndex line) (Change.lineNumber c)
  | T_replace =>
      Change.type c = modification ∧
      numbered (DiffLine.modifiedIndex line) (Change.lineNumber c)
  end.

(** [lines.splice(start, 1)]: a negative [start] counts from the end, and
    nothing is removed when the start position is past the last element. *)
Definition splice1 (lines : list (option string)) (start : Z) : list (option string) :=
  let len := Z.of_nat (length lines) in
  let actualStart := if (start <? 0)%Z then Z.max (len + start) 0 else Z.min start len in
  delete (Z.to_nat actualStart) lines.

(** [lines[lineIndex] = v]: inside the array the element is replaced, past
    its end the array grows and the skipped slots stay empty ([None]); a
    negative index names a property that is not an element. *)
Definition assign (lines : list (option string)) (lineIndex : Z) (v : string)
    : list (option string) :=
  if (lineIndex <? 0)%Z then lines
  else if (lineIndex <? Z.of_nat (length lines))%Z then <[Z.to_nat lineIndex := Some v]> lines
  else lines ++ replicate (Z.to_nat lineIndex - length lines) None ++ [Some v].


Definition apply_accepted (lines : list (option string)) (change : Change.t)
    : list (option string) :=
  let lineIndex := (Change.lineNumber change - 1)%Z in
  if bool_decide (Change.type change = deletion) then splice1 lines lineIndex
  else lines.

Definition apply_rejected (lines : list (option string)) (change : Change.t)
    : list (option string) :=
  let lineIndex := (Change.lineNumber change - 1)%Z in
  if bool_decide (Change.type change = addition) then splice1 lines lineIndex
  else if bool_decide (Change.type change = modification) && truthy_string (Change.originalContent change)
  then assign lines lineIndex (default "" (Change.originalContent change))
  else lines.

(** [join] prints an empty slot as the empty string. *)
Definition join_lines (lines : list (option string)) : string :=
  Str.join (default "" <$> lines).

Definition applyChanges (content : string) (changes : list Change.t) : string :=
  let lines := Some <$> Str.split content in
  let acceptedChanges := filter (λ change, Change.status change = accepted) changes in
  let rejectedChanges := filter (λ change, Change.status change = rejected) changes in
  let lines := fold_left apply_accepted acceptedChanges lines in
  let lines := fold_left apply_rejected rejectedChanges lines in
  join_lines lines.

(** A change that [applyChanges] passes over. *)
Definition inert (c : Change.t) : Prop :=
  match Change.status c with
  | pending => True
  | accepted => Change.type c ≠ deletion
  | rejected =>
      Change.type c = deletion ∨
      (Change.type c = modification ∧ truthy_string (Change.originalContent c) = false)
  end.

(** Entry lists with exactly one entry of type [t], all others [equal]. *)
Definition single_change (t : DiffType) (d : list DiffLine.t) : Prop :=
  length (filter (λ e, DiffLine.type e = t) d) = 1 ∧
  Forall (λ e, DiffLine.type e = t ∨ DiffLine.type e = T_equal) d.

(** [S] without the lines equal to [x] it starts with. *)
Fixpoint skip_run (x : string) (S : list string) : list string :=
  match S with
  | [] => []
  | s :: S' => if decide (s = x) then skip_run x S' else S
  end.

(** Entry lists made of entries of type [t] around one [equal] or
    [replace] entry that reads line 0 of both sides. *)
Definition all_but_anchor (t : DiffType) (d : list DiffLine.t) : Prop :=
  ∃ pre e post,
    d = pre ++ e :: post ∧
    (DiffLine.type e = T_equal ∨ DiffLine.type e = T_replace) ∧
    Forall (λ x, DiffLine.type x = t) pre ∧
    Forall (λ x, DiffLine.type x = t) post.

End Differ.

(** ** The change store (server/storage.ts) *)

(** A [Date] is kept as its time value. *)
Definition Date := Z.

Module Document.
Record t := mk {
  id : Z;
  name : string;
  content : string;
  originalContent : option string;
  mimeType : option string;
  createdAt : Date;
  updatedAt : Date;
}.
End Document.

Module InsertDocument.
Record t := mk {
  name : string;
  content : string;
  originalContent : option string;
  mimeType : option string;
}.
End InsertDocument.

(** [Partial<InsertDocument>]: [None] is an absent key. *)
Module PartialDocument.
Record t := mk {
  name : option string;
  content : option string;
  originalContent : option (option string);
  mimeType : option (option string);
}.
End PartialDocument.

Module Revision.
Record t := mk {
  id : Z;
  documentId : Z;
  content : string;
  changes : option (list Change.t);
  isAccepted : option bool;
  createdAt : Date;
}.
End Revision.

Module InsertRevision.
Record t := mk {
  documentId : Z;
  content : string;
  changes : option (list Change.t);
  isAccepted : option bool;
}.
End InsertRevision.

Module PartialRevision.
Record t := mk {
  documentId : option Z;
  content : option string;
  changes : option (option (list Change.t));
  isAccepted : option (option bool);
}.
End PartialRevision.

(** A row of the [changes] table: [type] and [status] are text columns. *)
Module ChangeRecord.
Record t := mk {
  id : Z;
  revisionId : Z;
  type : string;
  lineNumber : Z;
  content : string;
  originalContent : option string;
  status : option string;
  createdAt : Date;
}.
End ChangeRecord.

Module InsertChange.
Record t := mk {
  revisionId : Z;
  type : string;
  lineNumber : Z;
  content : string;
  originalContent : option string;
  status : option string;
}.
End InsertChange.

Module PartialChange.
Record t := mk {
  revisionId : option Z;
  type : option string;
  lineNumber : option Z;
  content : option string;
  originalContent : option (option string);
  status : option (option string);
}.
End PartialChange.

Module MemStorage.

Record t := mk {
  documents : gmap Z Document.t;
  revisions : gmap Z Revision.t;
  changes : gmap Z ChangeRecord.t;
  currentDocumentId : Z;
  currentRevisionId : Z;
  currentChangeId : Z;
}.

(** [constructor()]. *)
Definition new : t := mk ∅ ∅ ∅ 1 1 1.

(** A spread [{...old, ...update}] on one key. *)
Definition spread {A} (old : A) (update : option A) : A := default old update.

Definition getDocument (id : Z) (st : t) : option Document.t := documents st !! id.

Definition createDocument (insertDocument : InsertDocument.t) (now : Date) (st : t)
    : Document.t * t :=
  let id := currentDocumentId st in
  let document :=
    Document.mk id (InsertDocument.name insertDocument)
      (InsertDocument.content insertDocument)
      (InsertDocument.originalContent insertDocument)
      (InsertDocument.mimeType insertDocument) now now in
  (document,
   mk (<[id := document]> (documents st)) (revisions st) (changes st)
      (currentDocumentId st + 1)%Z (currentRevisionId st) (currentChangeId st)).

Definition updateDocument (id : Z) (updateData : PartialDocument.t) (now : Date) (st : t)
    : option Document.t * t :=
  match documents st !! id with
  | None => (None, st)
  | Some document =>
      let updatedDocument :=
        Document.mk (Document.id document)
          (spread (Document.name document) (PartialDocument.name updateData))
          (spread (Document.content document) (PartialDocument.content updateData))
          (spread (Document.originalContent document) (PartialDocument.originalContent updateData))
          (spread (Document.mimeType document) (PartialDocument.mimeType updateData))
          (Document.createdAt document) now in
      (Some updatedDocument,
       mk (<[id := updatedDocument]> (documents st)) (revisions st) (changes st)
          (currentDocumentId st) (currentRevisionId st) (currentChangeId st))
  end.

(** [Map.prototype.delete] answers whether the key was present. *)
Definition deleteDocument (id : Z) (st : t) : bool * t :=
  (bool_decide (is_Some (documents st !! id)),
   mk (delete id (documents st)) (revisions st) (changes st)
      (currentDocumentId st) (currentRevisionId st) (currentChangeId st)).

Definition getRevision (id : Z) (st : t) : option Revision.t := revisions st !! id.

Definition createRevision (insertRevision : InsertRevision.t) (now : Date) (st : t)
    : Revision.t * t :=
  let id := currentRevisionId st in
  let revision :=
    Revision.mk id (InsertRevision.documentId insertRevision)
      (InsertRevision.content insertRevision)
      (InsertRevision.changes insertRevision)
      (InsertRevision.isAccepted insertRevision) now in
  (revision,
   mk (documents st) (<[id := revision]> (revisions st)) (changes st)
      (currentDocumentId st) (currentRevisionId st + 1)%Z (currentChangeId st)).

Definition updateRevision (id : Z) (updateData : PartialRevision.t) (st : t)
    : option Revision.t * t :=
  match revisions st !! id with
  | None => (None, st)
  | Some revision =>
      let updatedRevision :=
        Revision.mk (Revision.id revision)
          (spread (Revision.documentId revision) (PartialRevision.documentId updateData))
          (spread (Revision.content revision) (PartialRevision.content updateData))
          (spread (Revision.changes revision) (PartialRevision.changes updateData))
          (spread (Revision.isAccepted revision) (PartialRevision.isAccepted updateData))
          (Revision.createdAt revision) in
      (Some updatedRevision,
       mk (documents st) (<[id := updatedRevision]> (revisions st)) (changes st)
          (currentDocumentId st) (currentRevisionId st) (currentChangeId st))
  end.

Definition getChange (id : Z) (st : t) : option ChangeRecord.t := changes st !! id.

Definition createChange (insertChange : InsertChange.t) (now : Date) (st : t)
    : ChangeRecord.t * t :=
  let id := currentChangeId st in
  let change :=
    ChangeRecord.mk id (InsertChange.revisionId insertChange)
      (InsertChange.type insertChange) (InsertChange.lineNumber insertChange)
      (InsertChange.content insertChange) (InsertChange.originalContent insertChange)
      (InsertChange.status insertChange) now in
  (change,
   mk (documents st) (revisions st) (<[id := change]> (changes st))
      (currentDocumentId st) (currentRevisionId st) (currentChangeId st + 1)%Z).

Definition updateChange (id : Z) (updateData : PartialChange.t) (st : t)
    : option ChangeRecord.t * t :=
  match changes st !! id with
  | None => (None, st)
  | Some change =>
      let updatedChange :=
        ChangeRecord.mk (ChangeRecord.id change)
          (spread (ChangeRecord.revisionId change) (PartialChange.revisionId updateData))
          (spread (ChangeRecord.type change) (PartialChange.type updateData))
          (spread (ChangeRecord.lineNumber change) (PartialChange.lineNumber updateData))
          (spread (ChangeRecord.content change) (PartialChange.content updateData))
          (spread (ChangeRecord.originalContent change) (PartialChange.originalContent updateData))
          (spread (ChangeRecord.status change) (PartialChange.status updateData))
          (ChangeRecord.createdAt change) in
      (Some updatedChange,
       mk (documents st) (revisions st) (<[id := updatedChange]> (changes st))
          (currentDocumentId st) (currentRevisionId st) (currentChangeId st))
  end.

(** [updateChange(id, { status })]. *)
Definition updateChangeStatus (id : Z) (status : string) (st : t)
    : option ChangeRecord.t * t :=
  updateChange id (PartialChange.mk None None None None None (Some (Some status))) st.

(** [{...change, status}]. *)
Definition set_status (change : ChangeRecord.t) (status : option string) : ChangeRecord.t :=
  ChangeRecord.mk (ChangeRecord.id change) (ChangeRecord.revisionId change)
    (ChangeRecord.type change) (ChangeRecord.lineNumber change)
    (ChangeRecord.content change) (ChangeRecord.originalContent change)
    status (ChangeRecord.createdAt change).

Definition set_changes (st : t) (changes' : gmap Z ChangeRecord.t) : t :=
  mk (documents st) (revisions st) changes'
     (currentDocumentId st) (currentRevisionId st) (currentChangeId st).

(** The mutating operations of the store, for reasoning about call sequences. *)
Inductive Op :=
  | OpCreateDocument (insertDocument : InsertDocument.t) (now : Date)
  | OpUpdateDocument (id : Z) (updateData : PartialDocument.t) (now : Date)
  | OpDeleteDocument (id : Z)
  | OpCreateRevision (insertRevision : InsertRevision.t) (now : Date)
  | OpUpdateRevision (id : Z) (updateData : PartialRevision.t)
  | OpCreateChange (insertChange : InsertChange.t) (now : Date)
  | OpUpdateChange (id : Z) (updateData : PartialChange.t)
  | OpUpdateChangeStatus (id : Z) (status : string).

Definition run_op (op : Op) (st : t) : t :=
  match op with
  | OpCreateDocument d now => snd (createDocument d now st)
  | OpUpdateDocument id u now => snd (updateDocument id u now st)
  | OpDeleteDocument id => snd (deleteDocument id st)
  | OpCreateRevision r now => snd (createRevision r now st)
  | OpUpdateRevision id u => snd (updateRevision id u st)
  | OpCreateChange c now => snd (createChange c now st)
  | OpUpdateChange id u => snd (updateChange id u st)
  | OpUpdateChangeStatus id status => snd (updateChangeStatus id status st)
  end.

Definition run (ops : list Op) (st : t) : t := fold_left (λ st op, run_op op st) ops st.

(** The ids handed out by the [createDocument] calls of a call sequence. *)
Fixpoint created_document_ids (ops : list Op) (st : t) : list Z :=
  match ops with
  | [] => []
  | op :: ops' =>
      match op with
      | OpCreateDocument d now =>
          Document.id (fst (createDocument d now st)) :: created_document_ids ops' (run_op op st)
      | _ => created_document_ids ops' (run_op op st)
      end
  end.

Definition is_create_document (op : Op) : bool :=
  match op with OpCreateDocument _ _ => true | _ => false end.

End MemStorage.

(** ** Request handlers (registerRoutes) *)

Module Routes.

Inductive Response (A : Type) :=
  | Json (code : nat) (body : A)
  | Message (code : nat) (message : string).
Arguments Json {A} code body.
Arguments Message {A} code message.

(** [PATCH /api/changes/:id/status].  [id] is [parseInt(req.params.id)]
    ([None] for [NaN]); [status] is [req.body.status] when it is a string. *)
Definition patchChangeStatus (id : option Z) (status : option string) (st : MemStorage.t)
    : Response ChangeRecord.t * MemStorage.t :=
  match status with
  | Some status =>
      if bool_decide (status ∈ ["accepted"; "rejected"]) then
        match id with
        | Some id =>
            match MemStorage.updateChangeStatus id status st with
            | (Some change, st') => (Json 200 change, st')
            | (None, st') => (Message 404 "Change not found", st')
            end
        | None => (Message 404 "Change not found", st)
        end
      else (Message 400 "Invalid status", st)
  | None => (Message 400 "Invalid status", st)
  end.

(** What the editing services answer. *)
Module EditResponse.
Record t := mk {
  editedContent : string;
  changes : option (list Change.t);
  summary : string;
}.
End EditResponse.

Module AiEditBody.
Record t := mk {
  revision : Revision.t;
  summary : string;
  changes : list Change.t;
}.
End AiEditBody.

Section ai_edit.
(** The editing service ([performDevelopmentalEdit] or [performLineEdit],
    by [editType]) is an outside call: it answers or throws ([None]).  The
    k-th [Math.random().toString(36).substr(2, 9)] evaluates to
    [random_id k]. *)
Context (performEdit : string → string → string → string → option EditResponse.t).
Context (random_id : nat → string).

(** The [changes] array stored with the new revision. *)
Definition revision_changes (changes : list Change.t) : list Change.t :=
  imap (λ k change,
          Change.mk (random_id k) (Change.type change) (Change.lineNumber change)
            (Change.content change) (Change.originalContent change) pending)
       changes.

(** [POST /api/documents/:id/ai-edit]. *)
Definition aiEdit (id : option Z) (instructions editType : option string)
    (provider : option string) (now : Date) (st : MemStorage.t)
    : Response AiEditBody.t * MemStorage.t :=
  let provider := default "openai" provider in
  if negb (truthy_string instructions) || negb (truthy_string editType) then
    (Message 400 "Instructions and editType are required", st)
  else if negb (bool_decide (default "" editType ∈ ["developmental"; "line"])) then
    (Message 400 "editType must be 'developmental' or 'line'", st)
  else if negb (bool_decide (provider ∈ ["openai"; "google"])) then
    (Message 400 "provider must be 'openai' or 'google'", st)
  else
    match id ≫= λ id, (id ,.) <$> MemStorage.getDocument id st with
    | None => (Message 404 "Document not found", st)
    | Some (id, document) =>
        match performEdit (default "" editType) (Document.content document)
                (default "" instructions) provider with
        | None => (Message 500 "Failed to perform AI edit", st)
        | Some editResponse =>
            match EditResponse.changes editResponse with
            | None => (Message 500 "Failed to perform AI edit", st)
            | Some changes =>
                let '(revision, st') :=
                  MemStorage.createRevision
                    (InsertRevision.mk id
                       (EditResponse.editedContent editResponse)
                       (Some (revision_changes changes)) (Some false))
                    now st in
                (Json 200 (AiEditBody.mk revision (EditResponse.summary editResponse) changes),
                 st')
            end
        end
    end.

End ai_edit.

(** What a revision of the store holds when it was written by the handler. *)
Definition all_pending (rev : Revision.t) : Prop :=
  ∃ cs, Revision.changes rev = Some cs ∧ Forall (λ c, Change.status c = pending) cs.

End Routes.

(** ** The provider gateway (server/ai-providers.ts, server/ai-services-enhanced.ts) *)

Module JS.

Record Error := mkError { message : string }.

Inductive Result (A : Type) :=
  | Ok (a : A)
  | Throw (e : Error).
Arguments Ok {A} a.
Arguments Throw {A} e.

#[warnings="-register-all"]
Inductive JSON :=
  | JNull
  | JBool (b : bool)
  | JNumber (n : Z)
  | JString (s : string)
  | JArray (items : list JSON)
  | JObject (fields : list (string * JSON)).

Inductive ConsoleArg :=
  | CStr (s : option string)
  | CErr (e : Error).

Inductive AIProvider :=
  | openai | google | anthropic | cohere | azure | huggingface | perplexity
  | unlisted (name : string).

#[global] Instance AIProvider_eq_dec : EqDecision AIProvider.
Proof. solve_decision. Defined.

Definition provider_name (p : AIProvider) : string :=
  match p with
  | openai => "openai"
  | google => "google"
  | anthropic => "anthropic"
  | cohere => "cohere"
  | azure => "azure"
  | huggingface => "huggingface"
  | perplexity => "perplexity"
  | unlisted name => name
  end.

(** What a vendor SDK request comes back with: it throws, or it answers
    with a text that may be missing. *)
Inductive VendorReply :=
  | Throws (e : Error)
  | Text (t : option string).

(** The outside of the process: the environment variable, the vendors (their
    reply to the n-th request of the process), and what the process did to
    them so far. *)
Record World := mkWorld {
  GOOGLE_AI_API_KEY : option string;
  sdk : nat → AIProvider → string → VendorReply;
  calls : list (AIProvider * string);
  console : list (list ConsoleArg);
}.

Definition M (A : Type) : Type := World → Result A * World.

Definition ret {A} (a : A) : M A := λ w, (Ok a, w).
Definition throw {A} (e : Error) : M A := λ w, (Throw e, w).
Definition bind {A B} (m : M A) (k : A → M B) : M B :=
  λ w, match m w with
       | (Ok a, w') => k a w'
       | (Throw e, w') => (Throw e, w')
       end.
Definition try_catch {A} (m : M A) (handler : Error → M A) : M A :=
  λ w, match m w with
       | (Ok a, w') => (Ok a, w')
       | (Throw e, w') => handler e w'
       end.
Definition console_log (args : list ConsoleArg) : M unit :=
  λ w, (Ok tt, mkWorld (GOOGLE_AI_API_KEY w) (sdk w) (calls w) (console w ++ [args])).

(** One request to a vendor SDK. *)
Definition request (provider : AIProvider) (prompt : string) : M (option string) :=
  λ w,
    let w' := mkWorld (GOOGLE_AI_API_KEY w) (sdk w) (calls w ++ [(provider, prompt)]) (console w) in
    match sdk w (length (calls w)) provider prompt with
    | Throws e => (Throw e, w')
    | Text t => (Ok t, w')
    end.

(** [text || '{}']. *)
Definition or_empty_object (t : option string) : option string :=
  if truthy_string t then t else Some "{}".

Definition parse_failure : Error := mkError "Failed to parse AI response as JSON".
Definition replace_of_undefined : Error :=
  mkError "Cannot read properties of undefined (reading 'replace')".

(** [m] makes exactly the SDK requests [extra], in this order, and leaves
    the environment alone. *)
Definition makes_requests {A} (m : M A) (extra : list (AIProvider * string)) : Prop :=
  ∀ w, calls (snd (m w)) = calls w ++ extra ∧
       GOOGLE_AI_API_KEY (snd (m w)) = GOOGLE_AI_API_KEY w.

(** The world after [parseAIResponseJSON] gave up on [responseText]. *)
Definition parse_failure_logged (w : World) (e : Error) (responseText : option string) : World :=
  mkWorld (GOOGLE_AI_API_KEY w) (sdk w) (calls w)
    (console w ++ [[CStr (Some "AI response JSON parsing error:"); CErr e];
                   [CStr (Some "Raw response:"); CStr responseText]]).

(** A stand-in for [JSON.parse] in concrete runs: it agrees with
    [JSON.parse] on the text of the empty object and on every text that is
    not JSON. *)
Definition JSON_parse_sample (text : string) : Result JSON :=
  if bool_decide (text = "{}") then Ok (JObject [])
  else Throw (mkError "SyntaxError: Unexpected token").

End JS.

#[global] Instance M_ret : MRet JS.M := @JS.ret.
#[global] Instance M_bind : MBind JS.M := λ A B k m, JS.bind m k.

Module Gateway.
Import JS.

Section gateway.
(** [JSON.parse]: a value, or the [SyntaxError] it throws. *)
Context (JSON_parse : string → Result JSON).

(** [parseAIResponseJSON], the same function in both server files. *)
Definition parseAIResponseJSON (responseText : option string) : M JSON :=
  try_catch
    (match responseText with
     | None => throw replace_of_undefined
     | Some text =>
         let cleanedText := Str.strip_fence text in
         match JSON_parse cleanedText with
         | Ok v => ret v
         | Throw e => throw e
         end
     end)
    (λ e,
       console_log [CStr (Some "AI response JSON parsing error:"); CErr e] ;;
       console_log [CStr (Some "Raw response:"); CStr responseText] ;;
       throw parse_failure).

(** The [switch] inside the [try] of [getAIResponse] (ai-providers.ts). *)
Definition getAIResponse_switch (prompt : string) (provider : AIProvider) : M JSON :=
  match provider with
  | openai => t ← request openai prompt; parseAIResponseJSON (or_empty_object t)
  | google => t ← request google prompt; parseAIResponseJSON t
  | anthropic =>
      t ← request anthropic prompt;
      parseAIResponseJSON (match t with Some text => Some text | None => Some "{}" end)
  | cohere => t ← request cohere prompt; parseAIResponseJSON t
  | azure => throw (mkError "Azure OpenAI provider requires proper configuration")
  | huggingface => t ← request huggingface prompt; parseAIResponseJSON (or_empty_object t)
  | perplexity => t ← request perplexity prompt; parseAIResponseJSON t
  | unlisted name => throw (mkError ("Unsupported AI provider: " +:+ name))
  end.

(** The SDK requests one pass through the [switch] makes. *)
Definition requests (provider : AIProvider) (prompt : string) : list (AIProvider * string) :=
  match provider with
  | azure | unlisted _ => []
  | p => [(p, prompt)]
  end.

(** What the [catch] block logs first. *)
Definition log_provider_error (provider : AIProvider) (error : Error) (w : World) : World :=
  snd (console_log [CStr (Some ("Error with " +:+ provider_name provider +:+ " provider:"));
                    CErr error] w).

Definition log_fallback (w : World) : World :=
  snd (console_log [CStr (Some "Falling back to Google AI...")] w).

(** [getAIResponse] of ai-providers.ts.  [fuel] bounds the depth of the
    recursion; [None] means the bound was reached. *)
Fixpoint getAIResponse_fuel (fuel : nat) (prompt : string) (provider : AIProvider)
    (temperature : Q) (useJsonFormat : bool) (w : World) : option (Result JSON * World) :=
  match fuel with
  | O => None
  | S fuel' =>
      match getAIResponse_switch prompt provider w with
      | (Ok v, w1) => Some (Ok v, w1)
      | (Throw error, w1) =>
          let w2 := log_provider_error provider error w1 in
          if bool_decide (provider ≠ google) && truthy_string (GOOGLE_AI_API_KEY w2) then
            getAIResponse_fuel fuel' prompt google temperature useJsonFormat (log_fallback w2)
          else Some (Throw error, w2)
      end
  end.

Definition getAIResponse (prompt : string) (provider : AIProvider)
    (temperature : Q) (useJsonFormat : bool) (w : World) : option (Result JSON * World) :=
  getAIResponse_fuel 2 prompt provider temperature useJsonFormat w.

End gateway.

(** The wrapped form of a response text: an opening fence, the text, a
    closing fence, with whitespace after either fence. *)
Definition fenced (w1 body w3 : string) : string :=
  Str.fence_open +:+ w1 +:+ body +:+ Str.fence_close +:+ w3.

End Gateway.

Module Enhanced.
Import JS.

Section enhanced.
Context (JSON_parse : string → Result JSON).
(** [JSON.stringify(value, null, 2)]. *)
Context (JSON_stringify : JSON → string).

(** [getAIResponse] of ai-services-enhanced.ts: no [try], no fallback. *)
Definition getAIResponse (prompt : string) (provider : AIProvider)
    (temperature : Q) (useJsonFormat : bool) : M JSON :=
  match provider with
  | openai => t ← request openai prompt; Gateway.parseAIResponseJSON JSON_parse (or_empty_object t)
  | google => t ← request google prompt; Gateway.parseAIResponseJSON JSON_parse t
  | anthropic =>
      t ← request anthropic prompt;
      Gateway.parseAIResponseJSON JSON_parse
        (match t with Some text => Some text | None => Some "{}" end)
  | cohere => t ← request cohere prompt; Gateway.parseAIResponseJSON JSON_parse t
  | p => throw (mkError ("Unsupported AI provider: " +:+ provider_name p))
  end.

Definition analyses_json (analyses : list (AIProvider * JSON)) : JSON :=
  JArray ((λ '(provider, analysis),
             JObject [("provider", JString (provider_name provider)); ("analysis", analysis)])
          <$> analyses).

Definition nl : string := String Str.newline EmptyString.
Definition dq : string := String (ascii_of_nat 34) EmptyString.

Definition consensusPrompt (content analysisType : string)
    (analyses : list (AIProvider * JSON)) : string :=
  "You are a master editor synthesizing multiple AI analyses into a single, authoritative result."
  +:+ nl +:+ nl +:+
  "Analysis Type: " +:+ analysisType +:+ nl +:+ nl +:+
  "Original Content:" +:+ nl +:+ content +:+ nl +:+ nl +:+
  "Multiple AI Analyses:" +:+ nl +:+ JSON_stringify (analyses_json analyses) +:+ nl +:+ nl +:+
  "Instructions:" +:+ nl +:+
  "1. Compare all analyses for accuracy and completeness" +:+ nl +:+
  "2. Identify areas of agreement and disagreement" +:+ nl +:+
  "3. Synthesize the best insights from each analysis" +:+ nl +:+
  "4. Resolve conflicts using your editorial judgment" +:+ nl +:+
  "5. Create a comprehensive, authoritative final analysis" +:+ nl +:+
  "6. Include a " +:+ dq +:+ "consensusNotes" +:+ dq +:+ " field explaining your methodology"
  +:+ nl +:+ nl +:+
  "Return the final consensus analysis in the standard JSON format.".

Section consensus.
(** The [analysisFunction] argument: any asynchronous function of the
    content and a provider. *)
Context (analysisFunction : string → AIProvider → M JSON).

Definition log_analysis_failed (provider : AIProvider) (error : Error) (w : World) : World :=
  snd (console_log [CStr (Some (provider_name provider +:+ " analysis failed:"));
                    CErr error] w).

(** One turn of the [for ... of providers] loop. *)
Definition consensus_turn (content : string)
    (st : list (AIProvider * JSON) * World) (provider : AIProvider)
    : list (AIProvider * JSON) * World :=
  let '(analyses, w) := st in
  match analysisFunction content provider w with
  | (Ok analysis, w') => (analyses ++ [(provider, analysis)], w')
  | (Throw error, w') => (analyses, log_analysis_failed provider error w')
  end.

Definition all_failed : Error := mkError "All AI providers failed to complete analysis".

Definition multiProviderConsensus (content analysisType : string)
    (providers : list AIProvider) : M JSON :=
  λ w,
    let '(analyses, w') := fold_left (consensus_turn content) providers ([], w) in
    match analyses with
    | [] => (Throw all_failed, w')
    | [(_, analysis)] => (Ok analysis, w')
    | _ => getAIResponse (consensusPrompt content analysisType analyses) openai 0.2 true w'
    end.

(** The loop as the specification words it: the providers one at a time,
    a failing one skipped, the successes kept in order. *)
Inductive collect (content : string)
    : list AIProvider → World → list (AIProvider * JSON) → World → Prop :=
  | collect_done w : collect content [] w [] w
  | collect_success provider providers analysis w w' analyses w'' :
      analysisFunction content provider w = (Ok analysis, w') →
      collect content providers w' analyses w'' →
      collect content (provider :: providers) w ((provider, analysis) :: analyses) w''
  | collect_skip provider providers error w w' analyses w'' :
      analysisFunction content provider w = (Throw error, w') →
      collect content providers (log_analysis_failed provider error w') analyses w'' →
      collect content (provider :: providers) w analyses w''.

End consensus.

End enhanced.

End Enhanced.

(** ** Readings of a diff *)

Module DiffViews.

(** What an entry says about the original side: the index and the line it
    consumed there (an insert entry consumes none). *)
Definition original_side (d : list DiffLine.t) : list (option nat * option string) :=
  d ≫= λ e,
    match DiffLine.type e with
    | T_insert => []
    | T_replace => [(DiffLine.originalIndex e, DiffLine.originalContent e)]
    | T_equal | T_delete => [(DiffLine.originalIndex e, DiffLine.content e)]
    end.

(** What an entry says about the modified side. *)
Definition modified_side (d : list DiffLine.t) : list (option nat * option string) :=
  d ≫= λ e,
    match DiffLine.type e with
    | T_delete => []
    | T_equal | T_insert | T_replace => [(DiffLine.modifiedIndex e, DiffLine.content e)]
    end.

(** The lines of a text, each with its index. *)
Definition indexed_from (start : nat) (L : list string) : list (option nat * option string) :=
  imap (λ k l, (Some (start + k), Some l)) L.

(** The text a side reads back to. *)
Definition side_text (side : list (option nat * option string)) : string :=
  Str.join (omap snd side).

(** An entry that points into the two line sequences it was computed
    from: the indices it carries are in range and the lines it carries
    are the lines found there. *)
Definition anchored (A B : list string) (e : DiffLine.t) : Prop :=
  match DiffLine.type e with
  | T_equal =>
      ∃ i j a, e = Differ.equal_entry i j (Some a) ∧ A !! i = Some a ∧ B !! j = Some a
  | T_insert =>
      ∃ j b, e = Differ.insert_entry j (Some b) ∧ B !! j = Some b
  | T_delete =>
      ∃ i a, e = Differ.delete_entry i (Some a) ∧ A !! i = Some a
  | T_replace =>
      ∃ i j a b, e = Differ.replace_entry i j (Some b) (Some a) ∧
                 A !! i = Some a ∧ B !! j = Some b ∧ a ≠ b
  end.

(** A change that points into the texts: its line number is 1-based and in
    range, in the original for a deletion and in the modified text
    otherwise, and its content is the line found there; the original
    content of a modification is a line of the original. *)
Definition points_at (A B : list string) (c : Change.t) : Prop :=
  (1 ≤ Change.lineNumber c)%Z ∧
  match Change.type c with
  | deletion =>
      is_Some (Change.content c) ∧
      A !! Z.to_nat (Change.lineNumber c - 1) = Change.content c
  | addition =>
      is_Some (Change.content c) ∧
      B !! Z.to_nat (Change.lineNumber c - 1) = Change.content c
  | modification =>
      is_Some (Change.content c) ∧
      B !! Z.to_nat (Change.lineNumber c - 1) = Change.content c ∧
      ∃ a, Change.originalContent c = Some a ∧ a ∈ A ∧ Change.content c ≠ Some a
  end.

(** [{ ...change, status }]. *)
Definition with_status (status : Status) (change : Change.t) : Change.t :=
  Change.mk (Change.id change) (Change.type change) (Change.lineNumber change)
    (Change.content change) (Change.originalContent change) status.

(** A diff without insert and delete entries, whose replaced original
    lines are not empty. *)
Definition replace_only (d : list DiffLine.t) : Prop :=
  Forall (λ e, DiffLine.type e = T_equal ∨
               (DiffLine.type e = T_replace ∧
                truthy_string (DiffLine.originalContent e) = true)) d.

End DiffViews.

(** ** The editor hook (useEditor) *)

Module Editor.

(** [rejectChange]: the updater function it passes to [setChanges]. *)
Definition rejectChange (changeId : string) (prev : list Change.t) : list Change.t :=
  (λ change, if bool_decide (Change.id change = changeId)
             then DiffViews.with_status rejected change else change) <$> prev.

(** [rejectChange] called once for every change of the list. *)
Definition rejectEach (changes : list Change.t) : list Change.t :=
  fold_left (λ prev changeId, rejectChange changeId prev) (Change.id <$> changes) changes.

(** The undo history kept by the hook: the state variables [content],
    [history] and [historyIndex].  Every callback below is run against
    the state of the latest render, as its dependency list arranges. *)
Record History := mkHistory {
  content : option string;
  history : list string;
  historyIndex : Z;
}.

(** [useState] initial values. *)
Definition initial : History := mkHistory (Some "") [] (-1).

(** The effect that runs when the document changes. *)
Definition load (document : option Document.t) (s : History) : History :=
  match document with
  | Some document =>
      mkHistory (Some (Document.content document)) [Document.content document] 0
  | None => mkHistory (Some "") [""] 0
  end.

(** [a.slice(0, end)]: a negative [end] counts from the end of the array. *)
Definition slice_to (a : list string) (end_ : Z) : list string :=
  if (end_ <? 0)%Z then take (Z.to_nat (Z.of_nat (length a) + end_)) a
  else take (Z.to_nat end_) a.

(** [a[i]] for a number [i]. *)
Definition at_index (a : list string) (i : Z) : option string :=
  if (i <? 0)%Z then None else a !! Z.to_nat i.

Definition updateContent (newContent : string) (s : History) : History :=
  let newHistory := slice_to (history s) (historyIndex s + 1) ++ [newContent] in
  mkHistory (Some newContent) newHistory (Z.of_nat (length newHistory) - 1).

Definition undo (s : History) : History :=
  if (0 <? historyIndex s)%Z then
    let newIndex := (historyIndex s - 1)%Z in
    mkHistory (at_index (history s) newIndex) (history s) newIndex
  else s.

Definition redo (s : History) : History :=
  if (historyIndex s <? Z.of_nat (length (history s)) - 1)%Z then
    let newIndex := (historyIndex s + 1)%Z in
    mkHistory (at_index (history s) newIndex) (history s) newIndex
  else s.

Definition canUndo (s : History) : bool := (0 <? historyIndex s)%Z.
Definition canRedo (s : History) : bool :=
  (historyIndex s <? Z.of_nat (length (history s)) - 1)%Z.

Inductive Action :=
  | Load (document : option Document.t)
  | UpdateContent (newContent : string)
  | Undo
  | Redo.

Definition step (s : History) (a : Action) : History :=
  match a with
  | Load document => load document s
  | UpdateContent newContent => updateContent newContent s
  | Undo => undo s
  | Redo => redo s
  end.

(** The history is in step with the content: the index names an entry
    and that entry is the content. *)
Definition in_step (s : History) : Prop :=
  (0 ≤ historyIndex s < Z.of_nat (length (history s)))%Z ∧
  is_Some (content s) ∧
  content s = at_index (history s) (historyIndex s).

End Editor.

(** ** The change store: listings and reachable states *)

Module StoreQueries.
Import MemStorage.

(** A JavaScript [Map] iterates in insertion order.  [set] on a key that
    is present keeps the key's place, [set] on a new key puts it last, and
    [delete] takes the key out (a later [set] of it would put it last).
    The store is kept as three finite maps; their three key orders are
    kept here, beside it. *)
Module Orders.
Record t := mk {
  documents : list Z;
  revisions : list Z;
  changes : list Z;
}.
End Orders.

Definition order_set (k : Z) (keys : list Z) : list Z :=
  if bool_decide (k ∈ keys) then keys else keys ++ [k].

Definition order_delete (k : Z) (keys : list Z) : list Z :=
  filter (λ k', k' ≠ k) keys.

(** What a store call does to the key orders: its [set] and [delete]
    calls, on the keys the call uses. *)
Definition track_op (op : Op) (st : t) (o : Orders.t) : Orders.t :=
  match op with
  | OpCreateDocument _ _ =>
      Orders.mk (order_set (currentDocumentId st) (Orders.documents o))
        (Orders.revisions o) (Orders.changes o)
  | OpUpdateDocument id _ _ =>
      match documents st !! id with
      | Some _ => Orders.mk (order_set id (Orders.documents o))
                    (Orders.revisions o) (Orders.changes o)
      | None => o
      end
  | OpDeleteDocument id =>
      Orders.mk (order_delete id (Orders.documents o)) (Orders.revisions o) (Orders.changes o)
  | OpCreateRevision _ _ =>
      Orders.mk (Orders.documents o)
        (order_set (currentRevisionId st) (Orders.revisions o)) (Orders.changes o)
  | OpUpdateRevision id _ =>
      match revisions st !! id with
      | Some _ => Orders.mk (Orders.documents o) (order_set id (Orders.revisions o))
                    (Orders.changes o)
      | None => o
      end
  | OpCreateChange _ _ =>
      Orders.mk (Orders.documents o) (Orders.revisions o)
        (order_set (currentChangeId st) (Orders.changes o))
  | OpUpdateChange id _ | OpUpdateChangeStatus id _ =>
      match changes st !! id with
      | Some _ => Orders.mk (Orders.documents o) (Orders.revisions o)
                    (order_set id (Orders.changes o))
      | None => o
      end
  end.

(** The store and its key orders after a sequence of calls on a new store. *)
Definition history (ops : list Op) : t * Orders.t :=
  fold_left (λ s op, (run_op op s.1, track_op op s.1 s.2)) ops (new, Orders.mk [] [] []).

(** [Array.from(map.values())]: the values in key order. *)
Definition values {A} (m : gmap Z A) (keys : list Z) : list A :=
  omap (λ k, m !! k) keys.

Definition getDocuments (st : t) (o : Orders.t) : list Document.t :=
  values (documents st) (Orders.documents o).

Definition getRevisionsByDocument (documentId : Z) (st : t) (o : Orders.t) : list Revision.t :=
  filter (λ revision, Revision.documentId revision = documentId)
         (values (revisions st) (Orders.revisions o)).

Definition getChangesByRevision (revisionId : Z) (st : t) (o : Orders.t)
    : list ChangeRecord.t :=
  filter (λ change, ChangeRecord.revisionId change = revisionId)
         (values (changes st) (Orders.changes o)).

(** Every stored record sits under its own id, and every id in use is at
    least 1 and below the counter that hands out the next one. *)
Definition keyed {A} (id_of : A → Z) (next : Z) (m : gmap Z A) : Prop :=
  map_Forall (λ k x, (1 ≤ k < next)%Z ∧ id_of x = k) m.

Definition well_formed (st : t) : Prop :=
  (1 ≤ currentDocumentId st)%Z ∧ (1 ≤ currentRevisionId st)%Z ∧
  (1 ≤ currentChangeId st)%Z ∧
  keyed Document.id (currentDocumentId st) (documents st) ∧
  keyed Revision.id (currentRevisionId st) (revisions st) ∧
  keyed ChangeRecord.id (currentChangeId st) (changes st).

(** A key order that lists the keys of a map, each once, smaller keys
    first. *)
Definition in_key_order {A} (m : gmap Z A) (keys : list Z) : Prop :=
  StronglySorted Z.lt keys ∧ ∀ k, k ∈ keys ↔ is_Some (m !! k).

End StoreQueries.

(** ** Request handlers: what is stored for a proposal *)

Module RouteViews.

(** A stored change that keeps everything of a proposed change but its id
    and its status, which is pending. *)
Definition stored_for (proposal stored : Change.t) : Prop :=
  Change.type stored = Change.type proposal ∧
  Change.lineNumber stored = Change.lineNumber proposal ∧
  Change.content stored = Change.content proposal ∧
  Change.originalContent stored = Change.originalContent proposal ∧
  Change.status stored = pending.

End RouteViews.

(** ** Provider choice and plain texts (server/ai-providers.ts) *)

Module Providers.
Import JS.

(** [getOptimalProvider]: the [switch] over the analysis type. *)
Definition getOptimalProvider (analysisType : string) : AIProvider :=
  if bool_decide (analysisType ∈ ["character-voice"; "dialogue"]) then anthropic
  else if bool_decide (analysisType ∈ ["world-building"; "consistency"]) then openai
  else if bool_decide (analysisType ∈ ["themes"; "metaphors"]) then google
  else if bool_decide (analysisType ∈ ["pacing"; "structure"]) then cohere
  else if bool_decide (analysisType ∈ ["fact-checking"; "research"]) then perplexity
  else if bool_decide (analysisType = "creative-writing") then huggingface
  else openai.

Definition backtick : ascii := "`"%char.

(** A text without any backtick. *)
Fixpoint no_backtick (s : string) : bool :=
  match s with
  | EmptyString => true
  | String c s' => negb (Ascii.eqb c backtick) && no_backtick s'
  end.

(** The providers whose reply text is taken as it is, and those for which
    a missing or empty text is replaced by the text of the empty object. *)
Definition text_required (p : AIProvider) : bool :=
  match p with google | cohere | perplexity => true | _ => false end.

Definition text_defaulted (p : AIProvider) : bool :=
  match p with openai | anthropic | huggingface => true | _ => false end.

End Providers.

(** ** Editing and analysis services (server/ai-services-enhanced.ts) *)

Module Services.
Import JS.

(** The providers [getAIResponse] of this file has a case for. *)
Definition supported (p : AIProvider) : bool :=
  match p with openai | google | anthropic | cohere => true | _ => false end.

Definition asks (prompt : string) (p : AIProvider) : list (AIProvider * string) :=
  if supported p then [(p, prompt)] else [].

(** [value.key] on a parsed JSON value, for a key that the prototypes of
    objects, arrays and strings do not define: reading a property of
    [null] throws, an object yields its binding (a later binding of a key
    overrides an earlier one), every other value has no such property. *)
Definition get_property (value : JSON) (key : string) : Result (option JSON) :=
  match value with
  | JNull => Throw (mkError ("Cannot read properties of null (reading '" +:+ key +:+ "')"))
  | JObject fields => Ok (snd <$> last (filter (λ binding, binding.1 = key) fields))
  | _ => Ok None
  end.

(** Truthiness of an optional JSON value. *)
Definition truthy (value : option JSON) : bool :=
  match value with
  | None | Some JNull | Some (JBool false) | Some (JNumber 0) | Some (JString "") => false
  | Some _ => true
  end.

Definition nl : string := Enhanced.nl.
Definition dq : string := Enhanced.dq.

Definition metaphorPrompt (content : string) : string :=
  "Analyze the provided text for repeated metaphors and figurative language. Return a JSON object with a "
  +:+ dq +:+ "metaphors" +:+ dq +:+ " array and a " +:+ dq +:+ "summary" +:+ dq +:+ "."
  +:+ nl +:+ nl +:+ "Text:" +:+ nl +:+ content.

Section services.
Context (JSON_parse : string → Result JSON).
Context (JSON_stringify : JSON → string).

Definition analyzeMetaphors (content : string) (provider : AIProvider) : M JSON :=
  Enhanced.getAIResponse JSON_parse (metaphorPrompt content) provider 0.4 true.

Definition reviewPrompt (changes : list JSON) (instructions : string) : string :=
  "You are an executive editor. Your task is to review a list of proposed changes to a document and decide whether to "
  +:+ dq +:+ "accept" +:+ dq +:+ " or " +:+ dq +:+ "reject" +:+ dq
  +:+ " each one based on a provided style guide." +:+ nl +:+ nl +:+
  "Here is the style guide with the instructions to follow:" +:+ nl +:+
  "---" +:+ nl +:+ instructions +:+ nl +:+ "---" +:+ nl +:+ nl +:+
  "Here is the list of proposed changes in JSON format. For each change, analyze it against the style guide and update its "
  +:+ dq +:+ "status" +:+ dq +:+ " field to either " +:+ dq +:+ "accepted" +:+ dq +:+ " or "
  +:+ dq +:+ "rejected" +:+ dq +:+ ". Do not modify any other fields." +:+ nl +:+ nl +:+
  "Proposed Changes:" +:+ nl +:+ JSON_stringify (JArray changes) +:+ nl +:+ nl +:+
  "Return the complete, updated list of changes in the exact same JSON format, with only the "
  +:+ dq +:+ "status" +:+ dq
  +:+ " field modified for each change according to your review. The JSON response must contain a single key "
  +:+ dq +:+ "changes" +:+ dq +:+ " which is an array of the updated change objects.".

(** [reviewChangesWithInstructions]: [result.changes || changes]. *)
Definition reviewChangesWithInstructions (changes : list JSON) (instructions : string)
    (provider : AIProvider) : M JSON :=
  result ← Enhanced.getAIResponse JSON_parse (reviewPrompt changes instructions) provider 0.1 true;
  match get_property result "changes" with
  | Throw e => throw e
  | Ok reviewed => ret (if truthy reviewed then default JNull reviewed else JArray changes)
  end.

Definition crossVerifyPrompt (originalAnalysis : JSON) (analysisType content : string) : string :=
  "You are a senior editorial analyst reviewing another AI's analysis. Your task is to verify, critique, and enhance the provided analysis."
  +:+ nl +:+ nl +:+
  "Analysis Type: " +:+ analysisType +:+ nl +:+ nl +:+
  "Original Content:" +:+ nl +:+ content +:+ nl +:+ nl +:+
  "AI Analysis to Review:" +:+ nl +:+ JSON_stringify originalAnalysis +:+ nl +:+ nl +:+
  "Instructions:" +:+ nl +:+
  "1. Verify the accuracy of the original analysis" +:+ nl +:+
  "2. Identify any errors, omissions, or weaknesses" +:+ nl +:+
  "3. Enhance the analysis with additional insights" +:+ nl +:+
  "4. Maintain the same JSON structure but improve the content" +:+ nl +:+
  "5. Add a " +:+ dq +:+ "verificationNotes" +:+ dq +:+ " field explaining your changes"
  +:+ nl +:+ nl +:+
  "Return the enhanced analysis in the same JSON format with improvements and verification notes.".

Definition crossVerifyAnalysis (originalAnalysis : JSON) (analysisType content : string)
    (primaryProvider verificationProvider : AIProvider) : M JSON :=
  Enhanced.getAIResponse JSON_parse
    (crossVerifyPrompt originalAnalysis analysisType content) verificationProvider 0.3 true.

Section verification.
(** The [analysisFunction] argument. *)
Context (analysisFunction : string → AIProvider → M JSON).
(** The object spread [{ ...value, metadata }] and the clock reading
    [new Date().toISOString()]. *)
Context (spread_with_metadata : JSON → JSON → JSON).
Context (timestamp : string).

Definition metadata (primaryProvider verificationProvider : AIProvider)
    (analysisType : string) : JSON :=
  JObject [("primaryProvider", JString (provider_name primaryProvider));
           ("verificationProvider", JString (provider_name verificationProvider));
           ("analysisType", JString analysisType);
           ("timestamp", JString timestamp)].

Definition enhancedAnalysisWithVerification (content analysisType : string)
    (primaryProvider verificationProvider : AIProvider) : M JSON :=
  initialAnalysis ← analysisFunction content primaryProvider;
  verifiedAnalysis ← crossVerifyAnalysis initialAnalysis analysisType content
                        primaryProvider verificationProvider;
  mret (spread_with_metadata verifiedAnalysis
          (metadata primaryProvider verificationProvider analysisType)).

End verification.

End services.

End Services.

(** * Facts *)

(** ** Strings *)

Module StrFacts.
Import Str.

Lemma split_nonempty (s : string) : split s ≠ [].
Proof.
  induction s as [|c s IH]; simpl; [done|].
  destruct (Ascii.eqb c newline); [done|].
  by destruct (split s).
Qed.

Lemma join_cons_cons (l l' : string) (ls : list string) :
  join (l :: l' :: ls) = l +:+ String newline (join (l' :: ls)).
Proof. reflexivity. Qed.

Lemma join_split (s : string) : join (split s) = s.
Proof.
  induction s as [|c s IH]; [done|].
  simpl. destruct (Ascii.eqb c newline) eqn:Hc.
  - apply Ascii.eqb_eq in Hc. subst c.
    pose proof (split_nonempty s) as Hne.
    destruct (split s) as [|l ls]; [done|].
    rewrite join_cons_cons. simpl. by rewrite <- IH.
  - pose proof (split_nonempty s) as Hne.
    destruct (split s) as [|l ls]; [done|].
    destruct ls as [|l' ls].
    + simpl in *. by rewrite IH.
    + rewrite join_cons_cons in *. simpl. by rewrite <- IH.
Qed.

Lemma concat_newline_join (L : list string) :
  String.concat (String "010"%char EmptyString) L = join L.
Proof.
  induction L as [|l [|l' L] IH]; [done|done|].
  rewrite join_cons_cons, <- IH. reflexivity.
Qed.

Lemma split_no_newline (s : string) :
  Forall (λ l, ¬ In "010"%char (list_ascii_of_string l)) (split s).
Proof.
  induction s as [|c s IH]; simpl.
  - constructor; [|constructor]. simpl. tauto.
  - destruct (Ascii.eqb c newline) eqn:Hc.
    + constructor; [|done]. simpl. tauto.
    + apply Ascii.eqb_neq in Hc.
      destruct (split s) as [|l ls].
      * constructor; [|constructor]. simpl. intros [H|[]]. by apply Hc.
      * apply Forall_cons in IH as [Hl Hls]. constructor; [|done].
        simpl. intros [H|H]; [by apply Hc|by apply Hl].
Qed.

Lemma split_one_line (l : string) :
  ¬ In "010"%char (list_ascii_of_string l) → split l = [l].
Proof.
  induction l as [|c l IH]; simpl; [done|]. intros Hin.
  destruct (Ascii.eqb c newline) eqn:Hc.
  - apply Ascii.eqb_eq in Hc. exfalso. apply Hin. by left.
  - rewrite IH; [done|]. intros H. apply Hin. by right.
Qed.

Lemma split_first_line (l rest : string) :
  ¬ In "010"%char (list_ascii_of_string l) →
  split (l +:+ String newline rest) = l :: split rest.
Proof.
  induction l as [|c l IH]; intros Hin.
  - reflexivity.
  - change (String c l +:+ String newline rest) with (String c (l +:+ String newline rest)).
    simpl in *. destruct (Ascii.eqb c newline) eqn:Hc.
    + apply Ascii.eqb_eq in Hc. exfalso. apply Hin. by left.
    + rewrite IH; [done|]. intros H. apply Hin. by right.
Qed.

(** [split] is the one way to cut a text into lines at its newlines. *)
Lemma split_line_sequence (s : string) : Differ.line_sequence s (split s).
Proof.
  split_and!.
  - apply split_nonempty.
  - apply split_no_newline.
  - rewrite concat_newline_join. apply join_split.
Qed.

Lemma line_sequence_unique (s : string) (L : list string) :
  Differ.line_sequence s L → L = split s.
Proof.
  intros (Hne & Hall & <-). rewrite concat_newline_join.
  induction L as [|l [|l' L] IH].
  - done.
  - apply Forall_cons in Hall as [Hl _]. symmetry. by apply split_one_line.
  - apply Forall_cons in Hall as [Hl Hall].
    rewrite join_cons_cons, split_first_line by done. f_equal. by apply IH.
Qed.

End StrFacts.

(** ** The line differ *)

Module DifferFacts.
Import Differ.

Section loop_facts.
Context (A B : list string).

Lemma loop_acc fuel i j acc :
    generateDiff_loop fuel A B i j acc = (acc ++.) <$> generateDiff_loop fuel A B i j [].
  Proof.
    revert i j acc. induction fuel as [|fuel IH]; intros i j acc; simpl.
    - destruct (_ || _); simpl; [done|]. by rewrite app_nil_r.
    - destruct (_ || _); simpl; [|by rewrite app_nil_r].
      repeat case_match;
        rewrite IH; symmetry; rewrite IH;
        destruct (generateDiff_loop fuel A B _ _ []); simpl; try done;
        by rewrite <- app_assoc.
  Qed.

Lemma loop_step fuel (x : DiffLine.t) (i' j' : nat) :
    generateDiff_loop fuel A B i' j' [x] = (x ::.) <$> generateDiff_loop fuel A B i' j' [].
  Proof. by rewrite loop_acc. Qed.


Lemma cursor_tests (L : list string) (k : nat) :
    (k <? length L) = bool_decide (is_Some (L !! k)) ∧
    (length L <=? k) = bool_decide (L !! k = None).
  Proof.
    destruct (L !! k) as [x|] eqn:Hk.
    - apply lookup_lt_Some in Hk. split.
      + rewrite bool_decide_eq_true_2 by eauto. by apply Nat.ltb_lt.
      + rewrite bool_decide_eq_false_2 by done. apply Nat.leb_gt. lia.
    - apply lookup_ge_None in Hk. split.
      + rewrite bool_decide_eq_false_2 by (by intros [? ?]). apply Nat.ltb_ge. lia.
      + rewrite bool_decide_eq_true_2 by done. by apply Nat.leb_le.
  Qed.

Lemma loop_unfold_S fuel i j :
    generateDiff_loop (S fuel) A B i j [] =
    loop_body A B (λ i' j', generateDiff_loop fuel A B i' j' []) i j.
  Proof.
    unfold loop_body. simpl.
    destruct (cursor_tests A i) as [-> ->], (cursor_tests B j) as [-> ->].
    rewrite !Nat.add_1_r, !loop_step.
    destruct (A !! i) as [a|] eqn:Ha, (B !! j) as [b|] eqn:Hb; simpl; try done.
    - destruct (decide (a = b)) as [->|Hab].
      + by rewrite bool_decide_eq_true_2.
      + rewrite bool_decide_eq_false_2 by congruence.
        destruct (decide (A !! S i = Some b)) as [HA|HA].
        * by rewrite bool_decide_eq_true_2.
        * rewrite bool_decide_eq_false_2 by done.
          destruct (decide (B !! S j = Some a)) as [HB|HB].
          -- by rewrite bool_decide_eq_true_2.
          -- by rewrite bool_decide_eq_false_2.
  Qed.

Lemma loop_unfold_O i j :
    generateDiff_loop 0 A B i j [] =
    match A !! i, B !! j with None, None => Some [] | _, _ => None end.
  Proof.
    simpl. destruct (cursor_tests A i) as [-> _], (cursor_tests B j) as [-> _].
    by destruct (A !! i), (B !! j).
  Qed.


Lemma loop_sound fuel : ∀ i j d,
    generateDiff_loop fuel A B i j [] = Some d → walk A B i j d.
  Proof.
    induction fuel as [|fuel IH]; intros i j d.
    - rewrite loop_unfold_O.
      destruct (A !! i) eqn:Ha, (B !! j) eqn:Hb; try done.
      intros [= <-]. apply lookup_ge_None in Ha, Hb. by constructor.
    - rewrite loop_unfold_S. unfold loop_body.
      destruct (A !! i) as [a|] eqn:Ha, (B !! j) as [b|] eqn:Hb.
      + repeat case_decide; subst;
          intros (d' & Hd' & ->)%fmap_Some; apply IH in Hd'.
        * by apply walk_equal.
        * by eapply walk_delete.
        * by eapply walk_insert.
        * by eapply walk_replace.
      + intros (d' & Hd' & ->)%fmap_Some. apply IH in Hd'.
        apply lookup_ge_None in Hb. by apply walk_B_exhausted.
      + intros (d' & Hd' & ->)%fmap_Some. apply IH in Hd'.
        apply lookup_ge_None in Ha. by apply walk_A_exhausted.
      + intros [= <-]. apply lookup_ge_None in Ha, Hb. by constructor.
  Qed.

Lemma loop_complete i j d :
    walk A B i j d →
    ∀ fuel, remaining A B i j ≤ fuel → generateDiff_loop fuel A B i j [] = Some d.
  Proof.
    unfold remaining.
    induction 1 as [i j Hi Hj|i j b d Hi Hb _ IH|i j a d Ha Hj _ IH|i j a d Ha Hb _ IH
                   |i j a b d Ha Hb Hab HA _ IH|i j a b d Ha Hb Hab HA HB _ IH
                   |i j a b d Ha Hb Hab HA HB _ IH]; intros fuel Hfuel.
    - apply lookup_ge_None in Hi, Hj.
      destruct fuel; [rewrite loop_unfold_O|rewrite loop_unfold_S; unfold loop_body];
        by rewrite Hi, Hj.
    - pose proof (lookup_lt_Some _ _ _ Hb). apply lookup_ge_None in Hi.
      destruct fuel as [|fuel]; [lia|].
      rewrite loop_unfold_S. unfold loop_body. rewrite Hi, Hb, IH by lia. done.
    - pose proof (lookup_lt_Some _ _ _ Ha). apply lookup_ge_None in Hj.
      destruct fuel as [|fuel]; [lia|].
      rewrite loop_unfold_S. unfold loop_body. rewrite Ha, Hj, IH by lia. done.
    - pose proof (lookup_lt_Some _ _ _ Ha). pose proof (lookup_lt_Some _ _ _ Hb).
      destruct fuel as [|fuel]; [lia|].
      rewrite loop_unfold_S. unfold loop_body. rewrite Ha, Hb, IH by lia.
      by rewrite decide_True.
    - pose proof (lookup_lt_Some _ _ _ Ha). pose proof (lookup_lt_Some _ _ _ Hb).
      destruct fuel as [|fuel]; [lia|].
      rewrite loop_unfold_S. unfold loop_body. rewrite Ha, Hb, IH by lia.
      rewrite decide_False by done. by rewrite decide_True.
    - pose proof (lookup_lt_Some _ _ _ Ha). pose proof (lookup_lt_Some _ _ _ Hb).
      destruct fuel as [|fuel]; [lia|].
      rewrite loop_unfold_S. unfold loop_body. rewrite Ha, Hb, IH by lia.
      rewrite decide_False by done. rewrite decide_False by done. by rewrite decide_True.
    - pose proof (lookup_lt_Some _ _ _ Ha). pose proof (lookup_lt_Some _ _ _ Hb).
      destruct fuel as [|fuel]; [lia|].
      rewrite loop_unfold_S. unfold loop_body. rewrite Ha, Hb, IH by lia.
      by rewrite !decide_False by done.
  Qed.

Lemma loop_total fuel : ∀ i j,
    remaining A B i j ≤ fuel → is_Some (generateDiff_loop fuel A B i j []).
  Proof.
    unfold remaining.
    induction fuel as [|fuel IH]; intros i j Hfuel.
    - rewrite loop_unfold_O.
      rewrite (lookup_ge_None_2 A i), (lookup_ge_None_2 B j) by lia. eauto.
    - rewrite loop_unfold_S. unfold loop_body.
      destruct (A !! i) as [a|] eqn:Ha, (B !! j) as [b|] eqn:Hb;
        try (pose proof (lookup_lt_Some _ _ _ Ha));
        try (pose proof (lookup_lt_Some _ _ _ Hb));
        repeat case_decide; try (apply fmap_is_Some, IH; lia); eauto.
  Qed.

Lemma walk_functional i j d d' : walk A B i j d → walk A B i j d' → d = d'.
  Proof.
    intros H H'.
    apply loop_complete with (fuel := remaining A B i j) in H; [|done].
    apply loop_complete with (fuel := remaining A B i j) in H'; [|done].
    congruence.
  Qed.

End loop_facts.

Lemma drop_cons_inv {X} (L : list X) (k : nat) (x : X) (L' : list X) :
  drop k L = x :: L' → L !! k = Some x ∧ drop (S k) L = L'.
Proof.
  intros H. assert (L !! k = Some x) as Hk.
  { rewrite <- (Nat.add_0_r k), <- lookup_drop, H. done. }
  split; [done|]. apply drop_S in Hk. congruence.
Qed.

Lemma drop_nil_inv {X} (L : list X) (k : nat) : drop k L = [] → length L ≤ k.
Proof. intros H. apply (f_equal length) in H. rewrite length_drop in H. simpl in H. lia. Qed.

Lemma head_drop_S {X} (L : list X) (k : nat) : head (drop (S k) L) = L !! S k.
Proof. rewrite head_lookup, lookup_drop. f_equal. lia. Qed.

Lemma swalk_walk i j A' B' d :
  swalk i j A' B' d →
  ∀ A B, drop i A = A' → drop j B = B' → walk A B i j d.
Proof.
  induction 1 as [i j|i j b B' d _ IH|i j a A' d _ IH|i j a A' B' d _ IH
                 |i j a b A' B' d Hab HA _ IH|i j a b A' B' d Hab HA HB _ IH
                 |i j a b A' B' d Hab HA HB _ IH]; intros A B HdA HdB.
  - apply drop_nil_inv in HdA, HdB. by constructor.
  - pose proof (drop_nil_inv _ _ HdA).
    apply drop_cons_inv in HdB as [Hb HdB].
    apply walk_A_exhausted; auto.
  - pose proof (drop_nil_inv _ _ HdB).
    apply drop_cons_inv in HdA as [Ha HdA].
    apply walk_B_exhausted; auto.
  - apply drop_cons_inv in HdA as [Ha HdA]. apply drop_cons_inv in HdB as [Hb HdB].
    apply walk_equal; auto.
  - pose proof HdB as HdB'.
    apply drop_cons_inv in HdA as [Ha HdA]. apply drop_cons_inv in HdB as [Hb HdB].
    apply walk_delete with b; auto.
    by rewrite <- head_drop_S, HdA.
  - pose proof HdA as HdA'.
    apply drop_cons_inv in HdA as [Ha HdA]. apply drop_cons_inv in HdB as [Hb HdB].
    apply walk_insert with a; auto.
    + by rewrite <- head_drop_S, HdA.
    + by rewrite <- head_drop_S, HdB.
  - apply drop_cons_inv in HdA as [Ha HdA]. apply drop_cons_inv in HdB as [Hb HdB].
    apply walk_replace; auto.
    + by rewrite <- head_drop_S, HdA.
    + by rewrite <- head_drop_S, HdB.
Qed.

Lemma generateDiff_swalk (original modified : string) (d : list DiffLine.t) :
  swalk 0 0 (Str.split original) (Str.split modified) d →
  generateDiff original modified = Some d.
Proof.
  intros H. unfold generateDiff.
  apply loop_complete; [|unfold remaining; lia].
  by apply swalk_walk with (Str.split original) (Str.split modified).
Qed.

Lemma swalk_refl (L : list string) : ∀ i j, swalk i j L L (equal_run i j L).
Proof. induction L as [|l L IH]; intros i j; simpl; by constructor. Qed.

Lemma swalk_nil_l (B : list string) : ∀ i j, swalk i j [] B (insert_run j B).
Proof. induction B as [|b B IH]; intros i j; simpl; by constructor. Qed.

Lemma swalk_nil_r (A : list string) : ∀ i j, swalk i j A [] (delete_run i A).
Proof. induction A as [|a A IH]; intros i j; simpl; by constructor. Qed.

Lemma swalk_prefix (P A B : list string) : ∀ i j d,
  swalk (i + length P) (j + length P) A B d →
  swalk i j (P ++ A) (P ++ B) (equal_run i j P ++ d).
Proof.
  induction P as [|p P IH]; intros i j d; simpl.
  - by rewrite !Nat.add_0_r.
  - intros H. apply swalk_equal, IH.
    by rewrite !Nat.add_succ_comm.
Qed.

Lemma swalk_total (n : nat) : ∀ A B i j,
  length A + length B ≤ n → ∃ d, swalk i j A B d.
Proof.
  induction n as [|n IH]; intros A B i j Hn.
  - destruct A, B; simpl in Hn; try lia. eexists. constructor.
  - destruct A as [|a A], B as [|b B].
    + eexists. constructor.
    + eexists. apply swalk_nil_l.
    + eexists. apply swalk_nil_r.
    + simpl in Hn. destruct (decide (a = b)) as [->|Hab].
      { destruct (IH A B (S i) (S j)) as [d Hd]; [lia|].
        eexists. by apply swalk_equal. }
      destruct (decide (head A = Some b)) as [HA|HA].
      { destruct (IH A (b :: B) (S i) j) as [d Hd]; [simpl; lia|].
        eexists. by apply swalk_delete. }
      destruct (decide (head B = Some a)) as [HB|HB].
      { destruct (IH (a :: A) B i (S j)) as [d Hd]; [simpl; lia|].
        eexists. by apply swalk_insert. }
      destruct (IH A B (S i) (S j)) as [d Hd]; [lia|].
      eexists. by apply swalk_replace.
Qed.

Lemma equal_run_types i j L :
  Forall (λ e, DiffLine.type e = T_equal) (equal_run i j L).
Proof. revert i j. induction L; intros; simpl; constructor; auto. Qed.

Lemma insert_run_types j B :
  Forall (λ e, DiffLine.type e = T_insert) (insert_run j B).
Proof. revert j. induction B; intros; simpl; constructor; auto. Qed.

Lemma delete_run_types i A :
  Forall (λ e, DiffLine.type e = T_delete) (delete_run i A).
Proof. revert i. induction A; intros; simpl; constructor; auto. Qed.

Lemma single_change_equal_cons t e d :
  DiffLine.type e = T_equal → t ≠ T_equal →
  single_change t (e :: d) ↔ single_change t d.
Proof.
  intros He Ht. unfold single_change.
  rewrite filter_cons_False by congruence.
  rewrite Forall_cons. intuition.
Qed.

Lemma single_change_all_equal t d :
  t ≠ T_equal → Forall (λ e, DiffLine.type e = T_equal) d →
  ∀ e, DiffLine.type e = t → single_change t (e :: d).
Proof.
  intros Ht Hd e He. unfold single_change.
  rewrite filter_cons_True by done. split.
  - simpl. f_equal. induction Hd as [|x d Hx _ IH]; [done|].
    by rewrite filter_cons_False by congruence.
  - constructor; [by left|]. eapply Forall_impl; [done|]. simpl. auto.
Qed.

Lemma single_change_prefix t P d i j :
  t ≠ T_equal →
  single_change t (equal_run i j P ++ d) ↔ single_change t d.
Proof.
  intros Ht. revert i j. induction P as [|p P IH]; intros i j; simpl; [done|].
  by rewrite single_change_equal_cons.
Qed.

Lemma single_change_foreign t e d :
  DiffLine.type e ≠ t → DiffLine.type e ≠ T_equal → ¬ single_change t (e :: d).
Proof. intros H1 H2 [_ H]. apply Forall_cons in H as [[?|?] _]; done. Qed.

(** One line [x] put in front of the unread original lines [S]. *)
Lemma swalk_one_inserted (S : list string) (x : string) : ∀ i j,
  ∃ d, swalk i j S (x :: S) d ∧
       (single_change T_insert d ↔ skip_run x S !! 1 ≠ Some x).
Proof.
  induction S as [|s S IH]; intros i j.
  - exists [insert_entry j (Some x)]. split; [repeat constructor|].
    split; [by intros _|]. intros _. by apply single_change_all_equal; [|constructor|].
  - simpl. destruct (decide (s = x)) as [->|Hs].
    + destruct (IH (Datatypes.S i) (Datatypes.S j)) as (d & Hd & Hiff).
      eexists. split; [by apply swalk_equal|].
      by rewrite single_change_equal_cons.
    + destruct (decide (head S = Some x)) as [HS|HS].
      * destruct (swalk_total _ S (x :: s :: S) (Datatypes.S i) j (le_n _)) as [d Hd].
        eexists. split; [by apply swalk_delete|].
        split.
        -- by intros ?%single_change_foreign.
        -- intros H. by destruct S; simplify_eq/=.
      * eexists. split.
        { apply swalk_insert; [done|done|done|apply swalk_refl]. }
        split.
        -- intros _. destruct S; simpl in *; congruence.
        -- intros _. apply single_change_all_equal; [done|apply equal_run_types|done].
Qed.

(** One line [x] removed from in front of the unread modified lines [S]. *)
Lemma swalk_one_deleted (S : list string) (x : string) : ∀ i j,
  ∃ d, swalk i j (x :: S) S d ∧ single_change T_delete d.
Proof.
  induction S as [|s S IH]; intros i j.
  - exists [delete_entry i (Some x)]. split; [repeat constructor|].
    by apply single_change_all_equal; [|constructor|].
  - destruct (decide (x = s)) as [->|Hs].
    + destruct (IH (Datatypes.S i) (Datatypes.S j)) as (d & Hd & Hone).
      eexists. split; [by apply swalk_equal|].
      by rewrite single_change_equal_cons.
    + eexists. split.
      { apply swalk_delete; [done|done|apply swalk_refl]. }
      apply single_change_all_equal; [done|apply equal_run_types|done].
Qed.

(** The empty original: one line [""] against the modified lines. *)
Lemma swalk_empty_original (b : string) (B : list string) :
  ∃ d, swalk 0 0 [""] (b :: B) d ∧ all_but_anchor T_insert d.
Proof.
  destruct (decide ("" = b)) as [<-|Hb].
  { eexists. split; [apply swalk_equal, swalk_nil_l|].
    exists [], (equal_entry 0 0 (Some "")), (insert_run 1 B).
    split_and!; [done|by left|done|apply insert_run_types]. }
  destruct (decide (head B = Some "")) as [HB|HB].
  - destruct B as [|b' B]; simplify_eq/=.
    eexists. split.
    { apply swalk_insert; [done|done|done|]. apply swalk_equal, swalk_nil_l. }
    exists [insert_entry 0 (Some b)], (equal_entry 0 1 (Some "")), (insert_run 2 B).
    split_and!; [done|by left|by repeat constructor|apply insert_run_types].
  - eexists. split.
    { apply swalk_replace; [done|done|done|apply swalk_nil_l]. }
    exists [], (replace_entry 0 0 (Some b) (Some "")), (insert_run 1 B).
    split_and!; [done|by right|done|apply insert_run_types].
Qed.

(** The empty modified text: the original lines against one line [""]. *)
Lemma swalk_empty_modified (a : string) (A : list string) :
  ∃ d, swalk 0 0 (a :: A) [""] d ∧ all_but_anchor T_delete d.
Proof.
  destruct (decide (a = "")) as [->|Ha].
  { eexists. split; [apply swalk_equal, swalk_nil_r|].
    exists [], (equal_entry 0 0 (Some "")), (delete_run 1 A).
    split_and!; [done|by left|done|apply delete_run_types]. }
  destruct (decide (head A = Some "")) as [HA|HA].
  - destruct A as [|a' A]; simplify_eq/=.
    eexists. split.
    { apply swalk_delete; [done|done|]. apply swalk_equal, swalk_nil_r. }
    exists [delete_entry 0 (Some a)], (equal_entry 1 0 (Some "")), (delete_run 2 A).
    split_and!; [done|by left|by repeat constructor|apply delete_run_types].
  - eexists. split.
    { apply swalk_replace; [done|done|done|apply swalk_nil_r]. }
    exists [], (replace_entry 0 0 (Some "") (Some a)), (delete_run 1 A).
    split_and!; [done|by right|done|apply delete_run_types].
Qed.

(** C1.  [generateDiff] splits both inputs on newline into line sequences
    A and B, and emits exactly the entries of the six-case cursor walk over
    them started at (0, 0): it returns a list, that list is a walk in the
    stated case order whose entries hold the stated cursors and lines (a
    replace entry pairs A[i] with B[j]), and no other list is such a walk
    over line sequences of the two inputs. *)
Theorem generateDiff_case_order (original modified : string) :
  ∃ A B d,
    line_sequence original A ∧ line_sequence modified B ∧
    generateDiff original modified = Some d ∧
    walk A B 0 0 d ∧
    ∀ A' B' d', line_sequence original A' → line_sequence modified B' →
                walk A' B' 0 0 d' → d' = d.
Proof.
  destruct (loop_total (Str.split original) (Str.split modified)
              (length (Str.split original) + length (Str.split modified)) 0 0)
    as [d Hd]; [unfold remaining; lia|].
  exists (Str.split original), (Str.split modified), d.
  split_and!; [apply StrFacts.split_line_sequence..|done| |].
  - by apply loop_sound in Hd.
  - apply loop_sound in Hd.
    intros A' B' d' HA' HB' Hd'.
    apply StrFacts.line_sequence_unique in HA', HB'. subst A' B'.
    by eapply walk_functional.
Qed.

(** C3, as stated, fails for an inserted line: with original lines b, a and
    modified lines a, b, a (line a put in front) the original-side lookahead
    fires first and the result is delete, equal, insert, insert. *)
Lemma generateDiff_one_inserted_line_counterexample :
  let original := Str.join ["b"; "a"] in
  let modified := Str.join ["a"; "b"; "a"] in
  Str.split original = [] ++ ["b"; "a"] ∧
  Str.split modified = [] ++ "a" :: ["b"; "a"] ∧
  generateDiff original modified =
    Some [delete_entry 0 (Some "b"); equal_entry 1 0 (Some "a");
          insert_entry 1 (Some "b"); insert_entry 2 (Some "a")] ∧
  ¬ ∃ d, generateDiff original modified = Some d ∧ single_change T_insert d.
Proof.
  split_and!; try reflexivity.
  intros (d & Hd & Hlen & _). vm_compute in Hd. injection Hd as <-.
  vm_compute in Hlen. discriminate.
Qed.

(** C3, amended.  When the modified lines are the original lines with one
    line [x] put in after the common prefix [P], the diff has exactly one
    insert entry and otherwise equal entries exactly when, after the lines
    equal to [x] that directly follow the insertion point, the second
    original line is not [x].  When the modified lines are the original
    lines with one line removed, the diff always has exactly one delete
    entry and otherwise equal entries. *)
Theorem generateDiff_single_line_change (original modified : string)
    (P S : list string) (x : string) :
  (Str.split original = P ++ S → Str.split modified = P ++ x :: S →
   ∃ d, generateDiff original modified = Some d ∧
        (single_change T_insert d ↔ skip_run x S !! 1 ≠ Some x)) ∧
  (Str.split original = P ++ x :: S → Str.split modified = P ++ S →
   ∃ d, generateDiff original modified = Some d ∧ single_change T_delete d).
Proof.
  split; intros HA HB.
  - destruct (swalk_one_inserted S x (0 + length P) (0 + length P)) as (d & Hd & Hiff).
    exists (equal_run 0 0 P ++ d). split.
    + apply generateDiff_swalk. rewrite HA, HB. by apply swalk_prefix.
    + by rewrite single_change_prefix.
  - destruct (swalk_one_deleted S x (0 + length P) (0 + length P)) as (d & Hd & Hone).
    exists (equal_run 0 0 P ++ d). split.
    + apply generateDiff_swalk. rewrite HA, HB. by apply swalk_prefix.
    + by rewrite single_change_prefix.
Qed.

Lemma generateDiff_single_line_change_witness :
  (∃ d, generateDiff (Str.join ["a"; "b"]) (Str.join ["a"; "x"; "b"]) = Some d ∧
        (single_change T_insert d ↔ skip_run "x" ["b"] !! 1 ≠ Some "x")) ∧
  (∃ d, generateDiff (Str.join ["a"; "x"; "b"]) (Str.join ["a"; "b"]) = Some d ∧
        single_change T_delete d).
Proof.
  split.
  - apply (proj1 (generateDiff_single_line_change
                    (Str.join ["a"; "b"]) (Str.join ["a"; "x"; "b"]) ["a"] ["b"] "x"));
      reflexivity.
  - apply (proj2 (generateDiff_single_line_change
                    (Str.join ["a"; "x"; "b"]) (Str.join ["a"; "b"]) ["a"] ["b"] "x"));
      reflexivity.
Defined.

(** C4, as stated, fails: the empty string splits into one empty line, so
    an empty original against the one-line text a gives one replace entry,
    which is neither no entry nor an insert; two empty inputs give one
    equal entry. *)
Lemma generateDiff_empty_input_counterexample :
  generateDiff "" "a" = Some [replace_entry 0 0 (Some "a") (Some "")] ∧
  generateDiff "" "" = Some [equal_entry 0 0 (Some "")] ∧
  ¬ ∃ d, generateDiff "" "a" = Some d ∧
         (d = [] ∨ Forall (λ e, DiffLine.type e = T_insert) d).
Proof.
  split_and!; try reflexivity.
  intros (d & Hd & H). vm_compute in Hd. injection Hd as <-.
  destruct H as [H|H]; [done|]. by apply Forall_cons in H as [? _].
Qed.

(** C4, amended.  [generateDiff] returns an entry list for every pair of
    strings.  An empty input is one empty line: two empty inputs give one
    equal entry; with an empty original every entry is an insert except one
    equal or replace entry that consumes the empty line, and with an empty
    modified text every entry is a delete except one such entry. *)
Theorem generateDiff_total_and_empty_inputs :
  (∀ original modified, is_Some (generateDiff original modified)) ∧
  generateDiff "" "" = Some [equal_entry 0 0 (Some "")] ∧
  (∀ modified, ∃ d, generateDiff "" modified = Some d ∧ all_but_anchor T_insert d) ∧
  (∀ original, ∃ d, generateDiff original "" = Some d ∧ all_but_anchor T_delete d).
Proof.
  split_and!.
  - intros original modified. apply loop_total. unfold remaining. lia.
  - reflexivity.
  - intros modified. pose proof (StrFacts.split_nonempty modified) as Hne.
    destruct (Str.split modified) as [|b B] eqn:HB; [done|].
    destruct (swalk_empty_original b B) as (d & Hd & Hshape).
    exists d. split; [|done]. apply generateDiff_swalk. by rewrite HB.
  - intros original. pose proof (StrFacts.split_nonempty original) as Hne.
    destruct (Str.split original) as [|a A] eqn:HA; [done|].
    destruct (swalk_empty_modified a A) as (d & Hd & Hshape).
    exists d. split; [|done]. apply generateDiff_swalk. by rewrite HA.
Qed.

End DifferFacts.

(** ** Differ: change records *)

Module ChangeFacts.
Import Differ.

Lemma diffToChanges_step_equal acc n line :
  DiffLine.type line = T_equal → diffToChanges_step (acc, n) line = (acc, n).
Proof. intros Ht. unfold diffToChanges_step. rewrite Ht. by case_bool_decide. Qed.

Lemma diffToChanges_step_other acc n line :
  DiffLine.type line ≠ T_equal →
  ∃ c, diffToChanges_step (acc, n) line = (acc ++ [c], S n) ∧ change_of line c.
Proof.
  intros Ht. unfold diffToChanges_step, change_of.
  rewrite bool_decide_eq_true_2 by done.
  destruct (DiffLine.type line); [done|..]; eexists; (split; [reflexivity|]);
    (split_and!; try done);
    [destruct (DiffLine.modifiedIndex line)|destruct (DiffLine.originalIndex line)
    |destruct (DiffLine.modifiedIndex line)]; done.
Qed.

Lemma diffToChanges_fold (diff : list DiffLine.t) : ∀ acc n,
  ∃ cs, fold_left diffToChanges_step diff (acc, n) = (acc ++ cs, n + length cs) ∧
        Forall2 change_of (filter (λ l, DiffLine.type l ≠ T_equal) diff) cs.
Proof.
  induction diff as [|line diff IH]; intros acc n.
  - exists []. simpl. by rewrite app_nil_r, Nat.add_0_r.
  - cbn [fold_left]. destruct (decide (DiffLine.type line = T_equal)) as [Ht|Ht].
    + rewrite diffToChanges_step_equal by done.
      destruct (IH acc n) as (cs & -> & Hcs). exists cs. split; [done|].
      by rewrite filter_cons_False by (by intros []).
    + destruct (diffToChanges_step_other acc n line Ht) as (c & -> & Hc).
      destruct (IH (acc ++ [c]) (S n)) as (cs & -> & Hcs).
      exists (c :: cs). split.
      * rewrite <- app_assoc. simpl. f_equal. lia.
      * rewrite filter_cons_True by done. by constructor.
Qed.

Lemma diffToChanges_spec (diff : list DiffLine.t) :
  Forall2 change_of (filter (λ l, DiffLine.type l ≠ T_equal) diff) (diffToChanges diff).
Proof.
  unfold diffToChanges.
  destruct (diffToChanges_fold diff [] 1) as (cs & -> & Hcs). done.
Qed.

Lemma revision_changes_pending (random_id : nat → string) (changes : list Change.t) :
  Forall (λ c, Change.status c = pending) (Routes.revision_changes random_id changes).
Proof.
  apply Forall_lookup. intros i c. unfold Routes.revision_changes.
  rewrite list_lookup_imap. destruct (changes !! i); simpl; [|done].
  by intros [= <-].
Qed.

Lemma revision_changes_stored_for (random_id : nat → string) (proposals : list Change.t) :
  Forall2 RouteViews.stored_for proposals (Routes.revision_changes random_id proposals).
Proof.
  unfold Routes.revision_changes. apply Forall2_same_length_lookup. split.
  - by rewrite length_imap.
  - intros i p c Hp. rewrite list_lookup_imap, Hp. simpl. by intros [= <-].
Qed.

(** A well-formed request for a stored document that the editing service
    answers is answered 200, and the revision is written. *)
Lemma aiEdit_answered performEdit random_id docId document instructions editType provider
    now st editResponse proposals :
  MemStorage.getDocument docId st = Some document →
  truthy_string instructions = true →
  default "" editType ∈ ["developmental"; "line"] →
  default "openai" provider ∈ ["openai"; "google"] →
  performEdit (default "" editType) (Document.content document) (default "" instructions)
    (default "openai" provider) = Some editResponse →
  Routes.EditResponse.changes editResponse = Some proposals →
  let revision :=
    Revision.mk (MemStorage.currentRevisionId st) docId
      (Routes.EditResponse.editedContent editResponse)
      (Some (Routes.revision_changes random_id proposals)) (Some false) now in
  Routes.aiEdit performEdit random_id (Some docId) instructions editType provider now st =
  (Routes.Json 200 (Routes.AiEditBody.mk revision (Routes.EditResponse.summary editResponse) proposals),
   MemStorage.mk (MemStorage.documents st)
     (<[MemStorage.currentRevisionId st := revision]> (MemStorage.revisions st))
     (MemStorage.changes st) (MemStorage.currentDocumentId st)
     (MemStorage.currentRevisionId st + 1)%Z (MemStorage.currentChangeId st)).
Proof.
  intros Hdoc Hins Hty Hprov Hedit Hchanges revision. unfold Routes.aiEdit.
  assert (truthy_string editType = true) as Hty'.
  { destruct editType as [e|]; simpl in Hty.
    - apply elem_of_cons in Hty as [->|Hty]; [done|].
      apply elem_of_cons in Hty as [->|Hty]; [done|]. by apply elem_of_nil in Hty.
    - apply elem_of_cons in Hty as [?|Hty]; [done|].
      apply elem_of_cons in Hty as [?|Hty]; [done|]. by apply elem_of_nil in Hty. }
  rewrite Hins, Hty'. simpl.
  rewrite (bool_decide_eq_true_2 _ Hty), (bool_decide_eq_true_2 _ Hprov). simpl.
  rewrite Hdoc. simpl. rewrite Hedit, Hchanges. reflexivity.
Qed.

(** C2.  [diffToChanges] gives, in order, one Change per non-equal entry and
    none for an equal entry: insert becomes addition and replace becomes
    modification, both numbered by the modified-side index plus one, delete
    becomes deletion numbered by the original-side index plus one (an
    entry without that index is numbered 1); every Change has status
    pending.  Every revision in the store after the ai-edit handler ran was
    there before or holds only changes with status pending; and when the
    request is well formed, the document is stored and the editing service
    answers with proposals, the handler answers 200 and the store then
    holds the new revision, whose changes are the proposals in order, each
    with its type, line number and contents kept and with status
    pending. *)
Theorem diffToChanges_mapping_and_pending (diff : list DiffLine.t) :
  Forall2 change_of (filter (λ l, DiffLine.type l ≠ T_equal) diff) (diffToChanges diff) ∧
  Forall (λ c, Change.status c = pending) (diffToChanges diff) ∧
  ∀ performEdit random_id id instructions editType provider now st,
    let out := Routes.aiEdit performEdit random_id id instructions editType provider now st in
    map_Forall (λ rid rev, MemStorage.revisions st !! rid = Some rev ∨ Routes.all_pending rev)
      (MemStorage.revisions (snd out)) ∧
    ∀ docId document editResponse proposals,
      id = Some docId →
      MemStorage.getDocument docId st = Some document →
      truthy_string instructions = true →
      default "" editType ∈ ["developmental"; "line"] →
      default "openai" provider ∈ ["openai"; "google"] →
      performEdit (default "" editType) (Document.content document) (default "" instructions)
        (default "openai" provider) = Some editResponse →
      Routes.EditResponse.changes editResponse = Some proposals →
      ∃ revision stored,
        fst out = Routes.Json 200
                    (Routes.AiEditBody.mk revision (Routes.EditResponse.summary editResponse)
                       proposals) ∧
        MemStorage.getRevision (Revision.id revision) (snd out) = Some revision ∧
        Revision.documentId revision = docId ∧
        Revision.changes revision = Some stored ∧
        Forall2 RouteViews.stored_for proposals stored.
Proof.
  split_and!.
  - apply diffToChanges_spec.
  - pose proof (diffToChanges_spec diff) as H.
    induction H as [|line c ls cs Hc _ IH]; constructor; [|done]. by destruct Hc.
  - intros performEdit random_id id instructions editType provider now st out. split.
    + subst out. unfold Routes.aiEdit.
      repeat case_match; simpl; try (intros rid rev Hrev; by left).
      unfold MemStorage.createRevision in *. simplify_eq/=.
      apply map_Forall_insert_2.
      * right. eexists. split; [done|]. apply revision_changes_pending.
      * intros rid rev Hrev; by left.
    + intros docId document editResponse proposals -> Hdoc Hins Hty Hprov Hedit Hchanges.
      subst out.
      rewrite (aiEdit_answered performEdit random_id docId document instructions editType
                 provider now st editResponse proposals) by done.
      eexists _, _. split_and!; [done| |done|done|apply revision_changes_stored_for].
      unfold MemStorage.getRevision. simpl. apply lookup_insert_eq.
Qed.

Lemma diffToChanges_mapping_and_pending_witness :
  let document := InsertDocument.mk "a.txt" (Str.join ["line1"; "line2"; "line3"]) None None in
  let st := snd (MemStorage.createDocument document 0%Z MemStorage.new) in
  let proposal := Change.mk "p" modification 2 (Some "lineX") (Some "line2") accepted in
  let performEdit (editType content instructions provider : string) :=
    Some (Routes.EditResponse.mk (Str.join ["line1"; "lineX"; "line3"]) (Some [proposal])
            "one line") in
  let out := Routes.aiEdit performEdit pretty (Some 1%Z) (Some "tighten") (Some "line")
               None 5%Z st in
  ∃ revision stored,
    fst out = Routes.Json 200 (Routes.AiEditBody.mk revision "one line" [proposal]) ∧
    MemStorage.getRevision (Revision.id revision) (snd out) = Some revision ∧
    Revision.documentId revision = 1%Z ∧
    Revision.changes revision = Some stored ∧
    Forall2 RouteViews.stored_for [proposal] stored.
Proof.
  intros document st proposal performEdit out.
  apply (proj2 (proj2 (proj2 (diffToChanges_mapping_and_pending []))
                  performEdit pretty (Some 1%Z) (Some "tighten") (Some "line") None 5%Z st)
           1%Z (fst (MemStorage.createDocument document 0%Z MemStorage.new))
           (Routes.EditResponse.mk (Str.join ["line1"; "lineX"; "line3"]) (Some [proposal])
              "one line")
           [proposal]).
  - reflexivity.
  - reflexivity.
  - reflexivity.
  - apply list_elem_of_further, list_elem_of_here.
  - apply list_elem_of_here.
  - reflexivity.
  - reflexivity.
Defined.

Lemma fold_left_unchanged {A B} (f : A → B → A) (l : list B) (a : A) :
  Forall (λ b, ∀ a', f a' b = a') l → fold_left f l a = a.
Proof. intros H. revert a. induction H as [|b l Hb _ IH]; intros a; simpl; [done|]. by rewrite Hb. Qed.

Lemma join_lines_split (content : string) :
  join_lines (Some <$> Str.split content) = content.
Proof.
  unfold join_lines. rewrite <- list_fmap_compose.
  replace (default "" ∘ Some <$> Str.split content) with (Str.split content).
  - apply StrFacts.join_split.
  - induction (Str.split content) as [|l ls IH]; [done|]. by rewrite fmap_cons, <- IH.
Qed.

(** Changes that are pending, accepted without being deletions, or
    rejected deletions (or modifications without an original text) leave
    the content as it is. *)
Lemma applyChanges_inert (content : string) (changes : list Change.t) :
  Forall inert changes → applyChanges content changes = content.
Proof.
  intros H. unfold applyChanges.
  rewrite (fold_left_unchanged apply_accepted).
  - rewrite (fold_left_unchanged apply_rejected); [apply join_lines_split|].
    apply Forall_forall. intros c [Hst Hc]%list_elem_of_filter lines.
    rewrite Forall_forall in H. specialize (H c Hc). unfold inert in H. rewrite Hst in H.
    unfold apply_rejected. destruct H as [H|[H1 H2]].
    + rewrite H. done.
    + rewrite H1, H2. done.
  - apply Forall_forall. intros c [Hst Hc]%list_elem_of_filter lines.
    rewrite Forall_forall in H. specialize (H c Hc). unfold inert in H. rewrite Hst in H.
    unfold apply_accepted. by rewrite bool_decide_eq_false_2.
Qed.

(** C10.  When every change is pending, [applyChanges] returns the content
    unchanged. *)
Theorem applyChanges_all_pending (content : string) (changes : list Change.t) :
  Forall (λ c, Change.status c = pending) changes →
  applyChanges content changes = content.
Proof.
  intros H. apply applyChanges_inert.
  eapply Forall_impl; [done|]. intros c Hc. unfold inert. by rewrite Hc.
Qed.

Lemma applyChanges_all_pending_witness :
  let changes := diffToChanges [insert_entry 1 (Some "x"); delete_entry 0 (Some "a")] in
  Forall (λ c, Change.status c = pending) changes ∧
  applyChanges (Str.join ["a"; "b"]) changes = Str.join ["a"; "b"].
Proof.
  simpl. split.
  - repeat constructor.
  - apply (applyChanges_all_pending (Str.join ["a"; "b"])). repeat constructor.
Defined.

End ChangeFacts.

(** ** The change store *)

Module StoreFacts.
Import MemStorage.

Lemma run_op_counter (op : Op) (st : t) :
  currentDocumentId (run_op op st) =
  (currentDocumentId st + if is_create_document op then 1 else 0)%Z.
Proof.
  destruct op; simpl; try lia.
  - unfold updateDocument. destruct (documents st !! id); simpl; lia.
  - unfold updateRevision. destruct (revisions st !! id); simpl; lia.
  - unfold updateChange. destruct (changes st !! id); simpl; lia.
  - unfold updateChangeStatus, updateChange. destruct (changes st !! id); simpl; lia.
Qed.

(** The ids handed out are the counter value and its successors, whatever
    else happens in between. *)
Lemma created_document_ids_from (ops : list Op) : ∀ st,
  created_document_ids ops st =
  (λ k, (currentDocumentId st + Z.of_nat k)%Z)
    <$> seq 0 (length (filter (λ op, is_create_document op = true) ops)).
Proof.
  induction ops as [|op ops IH]; intros st; [done|].
  destruct op; cbn [created_document_ids];
    rewrite IH, run_op_counter; cbn [is_create_document];
    try (rewrite filter_cons_False by done; rewrite Z.add_0_r; done).
  rewrite filter_cons_True by done. cbn [length seq fmap list_fmap].
  f_equal; [simpl; lia|].
  rewrite <- seq_shift, <- list_fmap_compose.
  apply list_fmap_ext. intros _ k _. simpl. lia.
Qed.

Lemma seq_of_nat_sorted (n : nat) : ∀ start,
  StronglySorted Z.lt (Z.of_nat <$> seq start n).
Proof.
  induction n as [|n IH]; intros start; simpl; constructor; [apply IH|].
  apply Forall_fmap, Forall_forall. intros k Hk%list_elem_of_In%in_seq. simpl. lia.
Qed.

(** C9.  In a fresh store the [createDocument] calls of any call sequence,
    deletions and updates included, hand out the ids 1, 2, ..., N in this
    order, so the ids are strictly increasing and distinct and none is
    handed out twice; [deleteDocument] on an id that is not stored answers
    false and leaves the store as it is. *)
Theorem createDocument_ids_increasing (ops : list Op) :
  let ids := created_document_ids ops new in
  ids = Z.of_nat <$> seq 1 (length (filter (λ op, is_create_document op = true) ops)) ∧
  StronglySorted Z.lt ids ∧
  NoDup ids ∧
  ∀ st id, documents st !! id = None → deleteDocument id st = (false, st).
Proof.
  assert (created_document_ids ops new =
          Z.of_nat <$> seq 1 (length (filter (λ op, is_create_document op = true) ops))) as Hids.
  { rewrite created_document_ids_from. rewrite <- seq_shift, <- list_fmap_compose.
    apply list_fmap_ext. intros _ k _. simpl. lia. }
  simpl. rewrite Hids. split_and!.
  - done.
  - apply seq_of_nat_sorted.
  - apply NoDup_fmap; [intros ???; lia|apply NoDup_ListNoDup, List.seq_NoDup].
  - intros st id Hid. unfold deleteDocument.
    rewrite Hid, delete_id by done.
    rewrite bool_decide_eq_false_2 by (by intros [? ?]). by destruct st.
Qed.

Lemma createDocument_ids_increasing_witness :
  let doc := InsertDocument.mk "a.txt" "line1" None None in
  created_document_ids
    [OpCreateDocument doc 0%Z; OpDeleteDocument 1%Z; OpCreateDocument doc 1%Z;
     OpDeleteDocument 7%Z; OpCreateDocument doc 2%Z] new = [1; 2; 3]%Z ∧
  documents new !! 5%Z = None ∧
  deleteDocument 5 new = (false, new).
Proof.
  split_and!; [reflexivity|reflexivity|].
  apply (createDocument_ids_increasing []). reflexivity.
Defined.

Lemma updateChangeStatus_stored (st : t) (id : Z) (change : ChangeRecord.t) (status : string) :
  changes st !! id = Some change →
  updateChangeStatus id status st =
  (Some (set_status change (Some status)),
   set_changes st (<[id := set_status change (Some status)]> (changes st))).
Proof. intros H. unfold updateChangeStatus, updateChange. by rewrite H. Qed.

(** C8, as stated, fails: a change created pending and then accepted is
    turned to rejected by one more [updateChangeStatus], and likewise by
    the PATCH handler, and a plain [updateChange] sets it back to pending. *)
Lemma resolved_status_overwritten_counterexample :
  let c := InsertChange.mk 1 "addition" 2 "text" None (Some "pending") in
  let st := run [OpCreateChange c 0%Z; OpUpdateChangeStatus 1 "accepted"] new in
  ChangeRecord.status <$> changes st !! 1%Z = Some (Some "accepted") ∧
  ChangeRecord.status <$> changes (run_op (OpUpdateChangeStatus 1 "rejected") st) !! 1%Z
    = Some (Some "rejected") ∧
  ChangeRecord.status <$>
    changes (snd (Routes.patchChangeStatus (Some 1%Z) (Some "rejected") st)) !! 1%Z
    = Some (Some "rejected") ∧
  ChangeRecord.status <$>
    changes (run_op (OpUpdateChange 1 (PartialChange.mk None None None None None
                                         (Some (Some "pending")))) st) !! 1%Z
    = Some (Some "pending").
Proof. split_and!; vm_compute; reflexivity. Qed.

(** C8, amended.  The PATCH handler answers 400 and leaves the store alone
    for any status other than accepted or rejected, so it never sets a
    change back to pending; for a stored change it writes the requested
    status whatever the current one is (pending, accepted or rejected) and
    nothing else, and answers the updated change. *)
Theorem patchChangeStatus_overwrites (st : t) (id : Z) (change : ChangeRecord.t)
    (status : string) :
  (changes st !! id = Some change → status ∈ ["accepted"; "rejected"] →
   Routes.patchChangeStatus (Some id) (Some status) st =
   (Routes.Json 200 (set_status change (Some status)),
    set_changes st (<[id := set_status change (Some status)]> (changes st)))) ∧
  (status ∉ ["accepted"; "rejected"] →
   Routes.patchChangeStatus (Some id) (Some status) st =
   (Routes.Message 400 "Invalid status", st)).
Proof.
  unfold Routes.patchChangeStatus. split.
  - intros Hc Hs. rewrite bool_decide_eq_true_2 by done.
    by rewrite (updateChangeStatus_stored _ _ _ _ Hc).
  - intros Hs. by rewrite bool_decide_eq_false_2.
Qed.

Lemma patchChangeStatus_overwrites_witness :
  let c := InsertChange.mk 1 "addition" 2 "text" None (Some "pending") in
  let st := run [OpCreateChange c 0%Z; OpUpdateChangeStatus 1 "accepted"] new in
  let change := ChangeRecord.mk 1 1 "addition" 2 "text" None (Some "accepted") 0%Z in
  Routes.patchChangeStatus (Some 1%Z) (Some "rejected") st =
    (Routes.Json 200 (set_status change (Some "rejected")),
     set_changes st (<[1%Z := set_status change (Some "rejected")]> (changes st))) ∧
  Routes.patchChangeStatus (Some 1%Z) (Some "pending") st =
    (Routes.Message 400 "Invalid status", st).
Proof.
  intros c st change. split.
  - apply (proj1 (patchChangeStatus_overwrites st 1 change "rejected")).
    + vm_compute. reflexivity.
    + by apply (bool_decide_unpack _).
  - apply (proj2 (patchChangeStatus_overwrites st 1 change "pending")).
    by apply (bool_decide_unpack _).
Defined.

End StoreFacts.

(** ** The provider gateway *)

Module GatewayFacts.
Import JS Gateway.

Lemma append_cons (c : ascii) (a b : string) : String c a +:+ b = String c (a +:+ b).
Proof. reflexivity. Qed.

Lemma append_nil (b : string) : "" +:+ b = b.
Proof. reflexivity. Qed.

Lemma all_space_app (a b : string) :
  Str.all_space (a +:+ b) = Str.all_space a && Str.all_space b.
Proof.
  induction a as [|x a IH]; [done|].
  rewrite append_cons. simpl. by rewrite IH, andb_assoc.
Qed.

Lemma skip_space_app (w rest : string) :
  Str.all_space w = true → Str.starts_clean rest = true →
  Str.skip_space (w +:+ rest) = rest.
Proof.
  intros Hw Hrest. induction w as [|x w IH].
  - rewrite append_nil. destruct rest as [|c rest]; simpl in *; [done|].
    by destruct (Str.is_space c).
  - rewrite append_cons. simpl in *. apply andb_true_iff in Hw as [-> Hw]. auto.
Qed.

Lemma closes_here_inside (c : ascii) (body w3 : string) :
  Str.closes_here (String c body +:+ Str.fence_close +:+ w3) = false.
Proof.
  unfold Str.closes_here. apply andb_false_iff. right.
  destruct body as [|c1 [|c2 body]]; try reflexivity.
  rewrite !append_cons. cbn [Str.drop_chars].
  rewrite all_space_app. apply andb_false_iff. right. reflexivity.
Qed.

Lemma cut_close_fence (body w3 : string) :
  Str.all_space w3 = true →
  Str.cut_close (body +:+ Str.fence_close +:+ w3) = body.
Proof.
  intros Hw3. induction body as [|c body IH].
  - rewrite append_nil. unfold Str.fence_close. rewrite !append_cons, append_nil.
    cbn [Str.cut_close].
    replace (Str.closes_here _) with true; [done|].
    unfold Str.closes_here. simpl. rewrite Hw3. by destruct w3.
  - pose proof (closes_here_inside c body w3) as Hin.
    rewrite append_cons in *. cbn [Str.cut_close].
    by rewrite Hin, IH.
Qed.

Lemma prefix_append (p rest : string) : String.prefix p (p +:+ rest) = true.
Proof.
  induction p as [|c p IH].
  - by destruct rest.
  - rewrite append_cons. simpl. by destruct (ascii_dec c c).
Qed.

Lemma strip_fence_fenced (w1 body w3 : string) :
  Str.all_space w1 = true → Str.all_space w3 = true → Str.starts_clean body = true →
  Str.strip_fence (fenced w1 body w3) = body.
Proof.
  intros Hw1 Hw3 Hbody. unfold Str.strip_fence, fenced.
  rewrite prefix_append.
  change (Str.drop_chars 7 (Str.fence_open +:+ w1 +:+ body +:+ Str.fence_close +:+ w3))
    with (w1 +:+ body +:+ Str.fence_close +:+ w3).
  rewrite skip_space_app; [by apply cut_close_fence|done|].
  destruct body; [reflexivity|done].
Qed.

Section gateway_facts.
Context (JSON_parse : string → Result JSON).

Lemma parse_ok (raw : string) (v : JSON) (w : World) :
  JSON_parse (Str.strip_fence raw) = Ok v →
  parseAIResponseJSON JSON_parse (Some raw) w = (Ok v, w).
Proof. intros H. unfold parseAIResponseJSON, try_catch. by rewrite H. Qed.

Lemma parse_fail (raw : string) (e : Error) (w : World) :
  JSON_parse (Str.strip_fence raw) = Throw e →
  parseAIResponseJSON JSON_parse (Some raw) w =
  (Throw parse_failure, parse_failure_logged w e (Some raw)).
Proof.
  intros H. unfold parseAIResponseJSON, try_catch. rewrite H. simpl.
  unfold parse_failure_logged, mbind, M_bind, bind, console_log, throw. simpl.
  by rewrite <- app_assoc.
Qed.

Lemma parse_undefined (w : World) :
  parseAIResponseJSON JSON_parse None w =
  (Throw parse_failure, parse_failure_logged w replace_of_undefined None).
Proof.
  unfold parseAIResponseJSON, try_catch, parse_failure_logged. simpl.
  unfold mbind, M_bind, bind, console_log, throw. simpl.
  by rewrite <- app_assoc.
Qed.

Lemma parse_requests (t : option string) :
  makes_requests (parseAIResponseJSON JSON_parse t) [].
Proof.
  intros w. destruct t as [raw|].
  - destruct (JSON_parse (Str.strip_fence raw)) as [v|e] eqn:H.
    + rewrite (parse_ok _ _ _ H). simpl. by rewrite app_nil_r.
    + rewrite (parse_fail _ _ _ H). simpl. by rewrite app_nil_r.
  - rewrite parse_undefined. simpl. by rewrite app_nil_r.
Qed.

Lemma request_then_requests {A} (p : AIProvider) (prompt : string)
    (k : option string → M A) :
  (∀ t, makes_requests (k t) []) →
  makes_requests (t ← request p prompt; k t) [(p, prompt)].
Proof.
  intros Hk w. unfold mbind, M_bind, bind, request.
  destruct (sdk w (length (calls w)) p prompt) as [e|t]; simpl; [done|].
  destruct (Hk t (mkWorld (GOOGLE_AI_API_KEY w) (sdk w) (calls w ++ [(p, prompt)]) (console w)))
    as [Hc Hkey].
  rewrite Hc, Hkey. simpl. by rewrite app_nil_r.
Qed.

Lemma switch_requests (prompt : string) (provider : AIProvider) :
  makes_requests (getAIResponse_switch JSON_parse prompt provider) (requests provider prompt).
Proof.
  destruct provider; unfold getAIResponse_switch, requests;
    try (apply request_then_requests; intros t; apply parse_requests);
    intros w; simpl; by rewrite app_nil_r.
Qed.

(** C5.  [getAIResponse] returns within two passes.  When the pass for the
    requested provider succeeds, its value is returned and nothing else is
    requested.  When it throws (in the SDK request or in parsing) and the
    provider is not google and GOOGLE_AI_API_KEY is set, the same prompt is
    passed once to google and the outcome of that pass, value or error, is
    the outcome of the call; the requests made are the one of the requested
    provider followed by the one to google, so the requested provider is
    asked once and there is one fallback hop.  Otherwise the error is
    thrown on without any retry. *)
Theorem getAIResponse_single_fallback (prompt : string) (provider : AIProvider)
    (temperature : Q) (useJsonFormat : bool) (w : World) :
  let attempt := getAIResponse_switch JSON_parse prompt provider w in
  ∃ r w',
    getAIResponse JSON_parse prompt provider temperature useJsonFormat w = Some (r, w') ∧
    match fst attempt with
    | Ok v => r = Ok v ∧ calls w' = calls w ++ requests provider prompt
    | Throw error =>
        if bool_decide (provider ≠ google) && truthy_string (GOOGLE_AI_API_KEY w) then
          r = fst (getAIResponse_switch JSON_parse prompt google
                     (log_fallback (log_provider_error provider error (snd attempt)))) ∧
          calls w' = calls w ++ requests provider prompt ++ [(google, prompt)]
        else
          r = Throw error ∧ calls w' = calls w ++ requests provider prompt
    end.
Proof.
  intros attempt. unfold getAIResponse. cbn [getAIResponse_fuel].
  destruct (switch_requests prompt provider w) as [Hcalls Hkey].
  fold attempt in Hcalls, Hkey. fold attempt.
  destruct attempt as [[v|error] w1]; cbn [fst snd] in *.
  - eauto.
  - replace (GOOGLE_AI_API_KEY (log_provider_error provider error w1))
      with (GOOGLE_AI_API_KEY w) by done.
    destruct (bool_decide (provider ≠ google) && truthy_string (GOOGLE_AI_API_KEY w)) eqn:Hfb.
    + set (w3 := log_fallback (log_provider_error provider error w1)).
      destruct (switch_requests prompt google w3) as [Hcalls' _].
      assert (calls w3 = calls w ++ requests provider prompt) as Hw3 by done.
      destruct (getAIResponse_switch JSON_parse prompt google w3) as [[v'|error'] w4];
        cbn [fst snd] in *.
      * do 2 eexists. split; [done|]. split; [done|].
        by rewrite Hcalls', Hw3, <- app_assoc.
      * rewrite bool_decide_eq_false_2 by (by intros []). cbn [andb].
        do 2 eexists. split; [done|]. split; [done|].
        change (calls (log_provider_error google error' w4)) with (calls w4).
        by rewrite Hcalls', Hw3, <- app_assoc.
    + eauto.
Qed.

(** C6, amended.  A text wrapped as an opening json fence, whitespace, the
    body, a closing fence and whitespace is cleaned to the body, so it
    parses like the body whenever the body carries no fence itself.  When
    the cleaned text is not JSON the function throws, with the same fixed
    message for every text, and writes the raw text to the console. *)
Theorem parseAIResponseJSON_fence_and_failure (w1 body w3 raw : string)
    (e : Error) (w : World) :
  (Str.all_space w1 = true → Str.all_space w3 = true → Str.starts_clean body = true →
   Str.strip_fence (fenced w1 body w3) = body ∧
   (Str.strip_fence body = body →
    fst (parseAIResponseJSON JSON_parse (Some (fenced w1 body w3)) w) =
    fst (parseAIResponseJSON JSON_parse (Some body) w))) ∧
  (JSON_parse (Str.strip_fence raw) = Throw e →
   parseAIResponseJSON JSON_parse (Some raw) w =
   (Throw (mkError "Failed to parse AI response as JSON"),
    parse_failure_logged w e (Some raw))).
Proof.
  split.
  - intros Hw1 Hw3 Hbody.
    pose proof (strip_fence_fenced w1 body w3 Hw1 Hw3 Hbody) as Hstrip.
    split; [done|]. intros Hown.
    destruct (JSON_parse body) as [v|e'] eqn:Hparse.
    + rewrite !(parse_ok _ v); [done|by rewrite Hown|by rewrite Hstrip].
    + rewrite !(parse_fail _ e'); [done|by rewrite Hown|by rewrite Hstrip].
  - apply parse_fail.
Qed.

End gateway_facts.

Lemma parseAIResponseJSON_fence_and_failure_witness :
  let w := mkWorld None (λ _ _ _, Text None) [] [] in
  let e := mkError "SyntaxError: Unexpected token" in
  (Str.strip_fence (fenced Enhanced.nl "{}" "") = "{}" ∧
   (Str.strip_fence "{}" = "{}" →
    fst (parseAIResponseJSON JSON_parse_sample (Some (fenced Enhanced.nl "{}" "")) w) =
    fst (parseAIResponseJSON JSON_parse_sample (Some "{}") w))) ∧
  parseAIResponseJSON JSON_parse_sample (Some "oops") w =
    (Throw (mkError "Failed to parse AI response as JSON"),
     parse_failure_logged w e (Some "oops")).
Proof.
  intros w e. split.
  - apply (proj1 (parseAIResponseJSON_fence_and_failure
                    JSON_parse_sample Enhanced.nl "{}" "" "oops" e w)); reflexivity.
  - apply (proj2 (parseAIResponseJSON_fence_and_failure
                    JSON_parse_sample Enhanced.nl "{}" "" "oops" e w)); reflexivity.
Defined.

(** C6, as stated, fails: the error thrown for a text that is not JSON is
    the same for every text, so no raw text can be read off it. *)
Lemma parse_error_carries_no_raw_text_counterexample :
  ¬ ∃ carried : Error → string,
      ∀ (JSON_parse : string → Result JSON) raw w e w',
        parseAIResponseJSON JSON_parse (Some raw) w = (Throw e, w') → carried e = raw.
Proof.
  intros [carried H].
  pose (w := mkWorld None (λ _ _ _, Text None) [] []).
  assert (carried parse_failure = "oops") as H1.
  { apply (H JSON_parse_sample "oops" w parse_failure
             (parse_failure_logged w (mkError "SyntaxError: Unexpected token") (Some "oops"))).
    reflexivity. }
  assert (carried parse_failure = "nope") as H2.
  { apply (H JSON_parse_sample "nope" w parse_failure
             (parse_failure_logged w (mkError "SyntaxError: Unexpected token") (Some "nope"))).
    reflexivity. }
  congruence.
Qed.

End GatewayFacts.

(** ** Multi-provider consensus *)

Module ConsensusFacts.
Import JS Enhanced.

Section consensus_facts.
Context (JSON_parse : string → Result JSON) (JSON_stringify : JSON → string).
Context (analysisFunction : string → AIProvider → M JSON).

Lemma loop_collect (content : string) (providers : list AIProvider) : ∀ acc w,
  ∃ analyses w',
    fold_left (consensus_turn analysisFunction content) providers (acc, w) =
      (acc ++ analyses, w') ∧
    collect analysisFunction content providers w analyses w'.
Proof.
  induction providers as [|p providers IH]; intros acc w.
  - exists [], w. simpl. rewrite app_nil_r. split; [done|constructor].
  - cbn [fold_left]. unfold consensus_turn at 2.
    destruct (analysisFunction content p w) as [[analysis|error] w1] eqn:Hp.
    + destruct (IH (acc ++ [(p, analysis)]) w1) as (analyses & w' & -> & Hc).
      exists ((p, analysis) :: analyses), w'. split.
      * by rewrite <- app_assoc.
      * by eapply collect_success.
    + destruct (IH acc (log_analysis_failed p error w1)) as (analyses & w' & -> & Hc).
      exists analyses, w'. split; [done|]. by eapply collect_skip.
Qed.

Lemma collect_functional (content : string) providers w analyses1 w1 analyses2 w2 :
  collect analysisFunction content providers w analyses1 w1 →
  collect analysisFunction content providers w analyses2 w2 →
  analyses1 = analyses2 ∧ w1 = w2.
Proof.
  intros H. revert analyses2 w2.
  induction H as [w|p providers analysis w w' analyses w'' Hp _ IH
                 |p providers error w w' analyses w'' Hp _ IH];
    intros analyses2 w2 H2; inversion H2 as [|? ? ? ? ? ? ? Hp' H'|? ? ? ? ? ? ? Hp' H']; subst;
    try (rewrite Hp in Hp'; injection Hp' as ? ?; subst); try done.
  - by destruct (IH _ _ H') as [-> ->].
  - by apply IH.
Qed.

Lemma synthesis_requests (prompt : string) :
  makes_requests (getAIResponse JSON_parse prompt openai 0.2 true) [(openai, prompt)].
Proof.
  unfold getAIResponse. apply GatewayFacts.request_then_requests.
  intros t. apply GatewayFacts.parse_requests.
Qed.

(** C7, amended.  The analysis is run for the listed providers one at a
    time, a failing provider is skipped and the successes are kept in
    order.  With no success the call throws the all-providers-failed
    error; with exactly one success it returns that analysis and asks
    nobody else; with more than one it makes exactly one more request, to
    openai, with the synthesis prompt over the successes, and the outcome
    of that request, value or error, is the outcome of the call. *)
Theorem multiProviderConsensus_outcome (content analysisType : string)
    (providers : list AIProvider) (w : World) :
  ∃ analyses w',
    collect analysisFunction content providers w analyses w' ∧
    let result := multiProviderConsensus JSON_parse JSON_stringify analysisFunction
                    content analysisType providers w in
    match analyses with
    | [] => result = (Throw all_failed, w')
    | [(_, analysis)] => result = (Ok analysis, w')
    | _ =>
        let prompt := consensusPrompt JSON_stringify content analysisType analyses in
        result = getAIResponse JSON_parse prompt openai 0.2 true w' ∧
        calls (snd result) = calls w' ++ [(openai, prompt)]
    end.
Proof.
  destruct (loop_collect content providers [] w) as (analyses & w' & Hfold & Hc).
  exists analyses, w'. split; [done|].
  unfold multiProviderConsensus. rewrite Hfold. cbn [app].
  destruct analyses as [|[p a] [|pa analyses]]; [done|done|].
  cbv zeta. split; [done|]. apply synthesis_requests.
Qed.

End consensus_facts.

(** C7, as stated, fails: with two providers that both succeed and a
    synthesis request that the vendor refuses, the call throws although
    two analyses were there. *)
Lemma consensus_fails_after_successes_counterexample :
  let refuse := mkError "429 rate limit" in
  let w := mkWorld None (λ n _ _, if n <? 2 then Text (Some "{}") else Throws refuse) [] [] in
  let analysisFunction :=
    λ content provider, getAIResponse JSON_parse_sample content provider 0.4 true in
  let w' := mkWorld None (sdk w) [(openai, "text"); (google, "text")] [] in
  collect analysisFunction "text" [openai; google] w
    [(openai, JObject []); (google, JObject [])] w' ∧
  fst (multiProviderConsensus JSON_parse_sample (λ _, "[]") analysisFunction
         "text" "metaphors" [openai; google] w) = Throw refuse.
Proof.
  intros refuse w analysisFunction w'. split.
  - eapply collect_success; [reflexivity|].
    eapply collect_success; [reflexivity|]. constructor.
  - reflexivity.
Qed.

End ConsensusFacts.

(** ** Concrete runs *)

Module Runs.
Import JS.

(** The end-to-end lines of the specification: one changed line in the
    middle is one replace entry, that is one modification at line 2. *)
Example diff_of_one_changed_line :
  Differ.diffToChanges
    <$> Differ.generateDiff (Str.join ["line1"; "line2"; "line3"])
                            (Str.join ["line1"; "lineX"; "line3"])
  = Some [Change.mk "1" modification 2 (Some "lineX") (Some "line2") pending].
Proof. reflexivity. Qed.

(** The multi-line quirk: two lines put in front give a replace cascade. *)
Example diff_of_two_inserted_lines :
  (λ d : list DiffLine.t, DiffLine.type <$> d)
    <$> Differ.generateDiff (Str.join ["a"; "b"]) (Str.join ["x"; "y"; "a"; "b"])
  = Some [T_replace; T_replace; T_insert; T_insert].
Proof. reflexivity. Qed.

(** openai is down and the key for google is set: one request each, and
    the answer of google is the answer of the call. *)
Example fallback_run :
  let w := mkWorld (Some "key")
             (λ _ p _, match p with
                       | google => Text (Some (Gateway.fenced Enhanced.nl "{}" ""))
                       | _ => Throws (mkError "ECONNRESET")
                       end) [] [] in
  (λ '(r, w'), (r, calls w'))
    <$> Gateway.getAIResponse JSON_parse_sample "prompt" openai 0.3 true w
  = Some (Ok (JObject []), [(openai, "prompt"); (google, "prompt")]).
Proof. reflexivity. Qed.

(** Without the key the error of the requested provider comes back. *)
Example no_fallback_run :
  let w := mkWorld None (λ _ _ _, Throws (mkError "ECONNRESET")) [] [] in
  (λ '(r, w'), (r, calls w'))
    <$> Gateway.getAIResponse JSON_parse_sample "prompt" openai 0.3 true w
  = Some (Throw (mkError "ECONNRESET"), [(openai, "prompt")]).
Proof. reflexivity. Qed.

(** Three providers, one failing: the two analyses left go to openai in
    one synthesis request. *)
Example consensus_run :
  let w := mkWorld None
             (λ n _ _, if n =? 1 then Throws (mkError "503") else Text (Some "{}")) [] [] in
  let analysisFunction :=
    λ content provider, Enhanced.getAIResponse JSON_parse_sample content provider 0.4 true in
  let result := Enhanced.multiProviderConsensus JSON_parse_sample (λ _, "[]") analysisFunction
                  "text" "metaphors" [openai; google; anthropic] w in
  fst result = Ok (JObject []) ∧ fst <$> calls (snd result) = [openai; google; anthropic; openai].
Proof. split; reflexivity. Qed.

(** The ai-edit handler stores the proposed changes as pending, whatever
    status the editing service gave them. *)
Example ai_edit_run :
  let doc := InsertDocument.mk "a.txt" (Str.join ["line1"; "line2"; "line3"]) None None in
  let st := snd (MemStorage.createDocument doc 0%Z MemStorage.new) in
  let proposed := Change.mk "c" modification 2 (Some "lineX") (Some "line2") accepted in
  let performEdit := λ _ _ _ _,
    Some (Routes.EditResponse.mk (Str.join ["line1"; "lineX"; "line3"]) (Some [proposed]) "one line") in
  let st' := snd (Routes.aiEdit performEdit (λ k, pretty k) (Some 1%Z)
                    (Some "tighten") (Some "developmental") None 5%Z st) in
  Revision.changes <$> MemStorage.revisions st' !! 1%Z =
  Some (Some [Change.mk "0" modification 2 (Some "lineX") (Some "line2") pending]).
Proof. vm_compute. reflexivity. Qed.

End Runs.

(** ** Differ: what a diff keeps of the two texts *)

Module DiffViewFacts.
Import Differ DiffViews DifferFacts.

Lemma generateDiff_is_swalk (original modified : string) (d : list DiffLine.t) :
  generateDiff original modified = Some d →
  swalk 0 0 (Str.split original) (Str.split modified) d.
Proof.
  intros Hd.
  destruct (swalk_total _ (Str.split original) (Str.split modified) 0 0 (le_n _)) as [d' Hd'].
  pose proof (generateDiff_swalk _ _ _ Hd') as Hd''. congruence.
Qed.

Lemma generateDiff_exists_swalk (original modified : string) :
  ∃ d, generateDiff original modified = Some d ∧
       swalk 0 0 (Str.split original) (Str.split modified) d.
Proof.
  destruct (swalk_total _ (Str.split original) (Str.split modified) 0 0 (le_n _)) as [d Hd].
  exists d. split; [by apply generateDiff_swalk|done].
Qed.

Lemma indexed_from_cons (start : nat) (l : string) (L : list string) :
  indexed_from start (l :: L) = (Some start, Some l) :: indexed_from (S start) L.
Proof.
  unfold indexed_from. cbn [imap]. rewrite Nat.add_0_r. f_equal.
  apply imap_ext. intros k x _. simpl. do 2 f_equal. lia.
Qed.

Lemma swalk_sides i j A B d :
  swalk i j A B d →
  original_side d = indexed_from i A ∧ modified_side d = indexed_from j B.
Proof.
  unfold original_side, modified_side.
  induction 1 as [i j|i j b B d _ [IHo IHm]|i j a A d _ [IHo IHm]|i j a A B d _ [IHo IHm]
                 |i j a b A B d Hab HA _ [IHo IHm]|i j a b A B d Hab HA HB _ [IHo IHm]
                 |i j a b A B d Hab HA HB _ [IHo IHm]];
    rewrite ?indexed_from_cons; cbn [mbind list_bind DiffLine.type insert_entry
      delete_entry equal_entry replace_entry DiffLine.originalIndex DiffLine.modifiedIndex
      DiffLine.content DiffLine.originalContent app];
    rewrite ?IHo, ?IHm; rewrite ?indexed_from_cons; done.
Qed.

Lemma omap_indexed_from (start : nat) (L : list string) :
  omap snd (indexed_from start L) = L.
Proof.
  revert start. induction L as [|l L IH]; intros start; [done|].
  rewrite indexed_from_cons. cbn [omap list_omap snd]. by rewrite IH.
Qed.

(** X1.  Both texts can be read back from their diff: the entries that
    touch the original side carry, in order, every original line with its
    own index, the entries that touch the modified side every modified
    line with its index; joined, the two readings are the two inputs. *)
Theorem generateDiff_keeps_both_texts (original modified : string) :
  ∃ d, generateDiff original modified = Some d ∧
       original_side d = indexed_from 0 (Str.split original) ∧
       modified_side d = indexed_from 0 (Str.split modified) ∧
       side_text (original_side d) = original ∧
       side_text (modified_side d) = modified.
Proof.
  destruct (generateDiff_exists_swalk original modified) as (d & Hd & Hw).
  destruct (swalk_sides _ _ _ _ _ Hw) as [Ho Hm].
  exists d. unfold side_text. rewrite Ho, Hm, !omap_indexed_from.
  by rewrite !StrFacts.join_split.
Qed.

Lemma side_lengths (d : list DiffLine.t) :
  length (original_side d) ≤ length d ∧
  length (modified_side d) ≤ length d ∧
  length d ≤ length (original_side d) + length (modified_side d).
Proof.
  unfold original_side, modified_side.
  induction d as [|e d IH]; [simpl; lia|].
  cbn [mbind list_bind]. rewrite !length_app.
  destruct (DiffLine.type e); simpl; lia.
Qed.

Lemma length_indexed_from (start : nat) (L : list string) :
  length (indexed_from start L) = length L.
Proof. unfold indexed_from. apply length_imap. Qed.

(** X2.  A diff has at least as many entries as the longer text has lines
    and at most as many as both texts together. *)
Theorem generateDiff_length_bounds (original modified : string) :
  ∃ d, generateDiff original modified = Some d ∧
       length (Str.split original) `max` length (Str.split modified) ≤ length d ∧
       length d ≤ length (Str.split original) + length (Str.split modified).
Proof.
  destruct (generateDiff_exists_swalk original modified) as (d & Hd & Hw).
  destruct (swalk_sides _ _ _ _ _ Hw) as [Ho Hm].
  pose proof (side_lengths d) as H. rewrite Ho, Hm, !length_indexed_from in H.
  exists d. split; [done|]. lia.
Qed.

Lemma filter_equal_run i j L :
  filter (λ l, DiffLine.type l ≠ T_equal) (equal_run i j L) = [].
Proof.
  revert i j. induction L as [|l L IH]; intros i j; [done|].
  simpl. rewrite filter_cons_False by (by intros []). apply IH.
Qed.

(** X3.  The diff of a text with itself is one equal entry per line, and
    it converts to no change at all. *)
Theorem generateDiff_same_text (s : string) :
  generateDiff s s = Some (equal_run 0 0 (Str.split s)) ∧
  diffToChanges (equal_run 0 0 (Str.split s)) = [] ∧
  length (equal_run 0 0 (Str.split s)) = length (Str.split s).
Proof.
  split_and!.
  - apply generateDiff_swalk, swalk_refl.
  - pose proof (ChangeFacts.diffToChanges_spec (equal_run 0 0 (Str.split s))) as H.
    rewrite filter_equal_run in H. by apply Forall2_nil_inv_l in H.
  - generalize 0 at 1 2. induction (Str.split s) as [|l L IH]; intros n; [done|].
    simpl. by rewrite IH.
Qed.

End DiffViewFacts.

(** ** Differ: the changes of a diff *)

Module DiffChangeFacts.
Import Differ DiffViews DifferFacts.

Lemma walk_anchored A B i j d : walk A B i j d → Forall (anchored A B) d.
Proof.
  induction 1; constructor; try done; unfold anchored; simpl; eauto 10.
Qed.

Lemma change_of_points_at A B e c :
  anchored A B e → change_of e c → points_at A B c.
Proof.
  unfold anchored, change_of, points_at.
  intros He (Hst & Hc & Hoc & Hty).
  destruct (DiffLine.type e); [done|..].
  - destruct He as (j & b & -> & Hb). destruct Hty as [-> Hln]. simpl in *.
    rewrite Hln, Hc. simpl.
    replace (Z.to_nat (Z.of_nat j + 1 - 1)) with j by lia.
    split; [lia|]. eauto.
  - destruct He as (i & a & -> & Ha). destruct Hty as [-> Hln]. simpl in *.
    rewrite Hln, Hc. simpl.
    replace (Z.to_nat (Z.of_nat i + 1 - 1)) with i by lia.
    split; [lia|]. eauto.
  - destruct He as (i & j & a & b & -> & Ha & Hb & Hab). destruct Hty as [-> Hln].
    simpl in *. rewrite Hln, Hc, Hoc. simpl.
    replace (Z.to_nat (Z.of_nat j + 1 - 1)) with j by lia.
    split; [lia|]. split_and!; eauto.
    exists a. split_and!; [done|by eapply list_elem_of_lookup_2|congruence].
Qed.

(** X4.  Every change computed from the diff of two texts points into
    them: its line number is at least 1 and names an existing line, of the
    original for a deletion and of the modified text for an addition or
    modification, and its content is that very line; a modification also
    carries an original line different from its content. *)
Theorem diffToChanges_points_into_texts (original modified : string) :
  ∃ d, generateDiff original modified = Some d ∧
       Forall (points_at (Str.split original) (Str.split modified)) (diffToChanges d).
Proof.
  destruct (loop_total (Str.split original) (Str.split modified)
              (length (Str.split original) + length (Str.split modified)) 0 0)
    as [d Hd]; [unfold remaining; lia|].
  pose proof (loop_sound _ _ _ _ _ _ Hd) as Hw.
  exists d. split; [done|].
  apply walk_anchored in Hw.
  pose proof (ChangeFacts.diffToChanges_spec d) as Hspec.
  assert (Forall (anchored (Str.split original) (Str.split modified))
            (filter (λ l, DiffLine.type l ≠ T_equal) d)) as Hf.
  { apply Forall_forall. intros e [_ He]%list_elem_of_filter.
    by eapply Forall_forall in Hw. }
  revert Hf. induction Hspec as [|e c es cs Hec _ IH]; intros Hf; [constructor|].
  apply Forall_cons in Hf as [He Hes]. constructor; [|by apply IH].
  by eapply change_of_points_at.
Qed.

Lemma diffToChanges_step_id acc n line :
  DiffLine.type line ≠ T_equal →
  ∃ c, diffToChanges_step (acc, n) line = (acc ++ [c], S n) ∧ Change.id c = pretty n.
Proof.
  intros Ht. unfold diffToChanges_step.
  rewrite bool_decide_eq_true_2 by done.
  destruct (DiffLine.type line); [done|..]; eexists; (split; [reflexivity|done]).
Qed.

Lemma diffToChanges_fold_ids (diff : list DiffLine.t) : ∀ acc n,
  ∃ cs, fold_left diffToChanges_step diff (acc, n) = (acc ++ cs, n + length cs) ∧
        Change.id <$> cs = pretty <$> seq n (length cs) ∧
        length cs = length (filter (λ l, DiffLine.type l ≠ T_equal) diff).
Proof.
  induction diff as [|line diff IH]; intros acc n.
  - exists []. simpl. by rewrite app_nil_r, Nat.add_0_r.
  - cbn [fold_left]. destruct (decide (DiffLine.type line = T_equal)) as [Ht|Ht].
    + rewrite ChangeFacts.diffToChanges_step_equal by done.
      destruct (IH acc n) as (cs & -> & Hids & Hlen). exists cs. split; [done|].
      split; [done|]. by rewrite filter_cons_False by (by intros []).
    + destruct (diffToChanges_step_id acc n line Ht) as (c & -> & Hc).
      destruct (IH (acc ++ [c]) (S n)) as (cs & -> & Hids & Hlen).
      exists (c :: cs). split_and!.
      * rewrite <- app_assoc. simpl. f_equal. lia.
      * cbn [length seq]. by rewrite !fmap_cons, Hc, Hids.
      * rewrite filter_cons_True by done. simpl. by rewrite Hlen.
Qed.

(** X5.  The ids given by [diffToChanges] are the decimal numerals of 1,
    2, ..., n in this order, n being the number of non-equal entries; no
    two changes share an id. *)
Theorem diffToChanges_ids (diff : list DiffLine.t) :
  let n := length (filter (λ l, DiffLine.type l ≠ T_equal) diff) in
  Change.id <$> diffToChanges diff = pretty <$> seq 1 n ∧
  length (diffToChanges diff) = n ∧
  NoDup (Change.id <$> diffToChanges diff).
Proof.
  unfold diffToChanges.
  destruct (diffToChanges_fold_ids diff [] 1) as (cs & -> & Hids & Hlen).
  cbv zeta. cbn [fst app]. rewrite Hids, Hlen. split_and!; [done|done|].
  apply NoDup_fmap; [apply _|]. apply NoDup_ListNoDup, List.seq_NoDup.
Qed.

End DiffChangeFacts.

(** ** Differ: applying changes *)

Module ApplyFacts.
Import Differ DiffViews DifferFacts.

Lemma join_lines_delete (n : nat) (L : list string) :
  join_lines (delete n (Some <$> L)) = Str.join (delete n L).
Proof.
  unfold join_lines. f_equal. revert n.
  induction L as [|l L IH]; intros [|n]; simpl; try done.
  - clear IH. induction L as [|l' L IH]; simpl; [done|]. by f_equal.
  - f_equal. apply IH.
Qed.

Lemma filter_one_accepted (c : Change.t) :
  Change.status c = accepted →
  filter (λ change, Change.status change = accepted) [c] = [c] ∧
  filter (λ change, Change.status change = rejected) [c] = [].
Proof.
  intros H. split.
  - by rewrite filter_cons_True.
  - rewrite filter_cons_False; [done|]. rewrite H. done.
Qed.

(** X6.  One accepted deletion removes exactly the line it numbers when
    the number is in range; line number 0 removes the last line; a number
    past the last line changes nothing. *)
Theorem applyChanges_accepted_deletion (content : string) (c : Change.t) :
  Change.status c = accepted → Change.type c = deletion →
  let L := Str.split content in
  let k := Change.lineNumber c in
  ((1 ≤ k ≤ Z.of_nat (length L))%Z →
   applyChanges content [c] = Str.join (delete (Z.to_nat (k - 1)) L)) ∧
  (k = 0%Z → applyChanges content [c] = Str.join (delete (length L - 1) L)) ∧
  ((Z.of_nat (length L) < k)%Z → applyChanges content [c] = content).
Proof.
  intros Hst Hty L k. unfold applyChanges.
  destruct (filter_one_accepted c Hst) as [-> ->]. cbn [fold_left].
  unfold apply_accepted. rewrite bool_decide_eq_true_2 by done.
  unfold splice1. rewrite length_fmap. fold L. fold k.
  split_and!; intros Hk.
  - destruct (Z.ltb_spec (k - 1) 0); [lia|].
    rewrite Z.min_l by lia. apply join_lines_delete.
  - destruct (Z.ltb_spec (k - 1) 0); [|lia].
    replace (Z.to_nat (Z.max (Z.of_nat (length L) + (k - 1)) 0)) with (length L - 1) by lia.
    apply join_lines_delete.
  - destruct (Z.ltb_spec (k - 1) 0); [lia|].
    rewrite Z.min_r by lia. rewrite Nat2Z.id.
    rewrite join_lines_delete.
    rewrite delete_take_drop, take_ge, drop_ge, app_nil_r by lia.
    apply StrFacts.join_split.
Qed.

Lemma applyChanges_accepted_deletion_witness :
  let content := Str.join ["a"; "b"; "c"] in
  let del (k : Z) := Change.mk "1" deletion k (Some "x") None accepted in
  applyChanges content [del 2%Z] = Str.join ["a"; "c"] ∧
  applyChanges content [del 0%Z] = Str.join ["a"; "b"] ∧
  applyChanges content [del 4%Z] = content.
Proof.
  intros content del. split_and!.
  - apply (proj1 (applyChanges_accepted_deletion content (del 2%Z) eq_refl eq_refl)).
    vm_compute. split; discriminate.
  - apply (proj1 (proj2 (applyChanges_accepted_deletion content (del 0%Z) eq_refl eq_refl))).
    reflexivity.
  - apply (proj2 (proj2 (applyChanges_accepted_deletion content (del 4%Z) eq_refl eq_refl))).
    reflexivity.
Defined.

Lemma rejectChange_fold (ids : list string) : ∀ cs,
  fold_left (λ prev changeId, Editor.rejectChange changeId prev) ids cs =
  (λ c, if bool_decide (Change.id c ∈ ids) then with_status rejected c else c) <$> cs.
Proof.
  induction ids as [|id ids IH]; intros cs.
  - cbn [fold_left]. rewrite <- (list_fmap_id cs) at 1. apply list_fmap_ext.
    by intros _ c _.
  - cbn [fold_left]. rewrite IH. unfold Editor.rejectChange.
    rewrite <- list_fmap_compose. apply list_fmap_ext. intros _ c _. simpl.
    destruct (decide (Change.id c = id)) as [Hid|Hid].
    + rewrite (bool_decide_eq_true_2 (Change.id c = id)) by done.
      rewrite (bool_decide_eq_true_2 (Change.id c ∈ id :: ids)) by (subst; left).
      by case_bool_decide.
    + rewrite (bool_decide_eq_false_2 (Change.id c = id)) by done.
      rewrite (bool_decide_ext (Change.id c ∈ id :: ids) (Change.id c ∈ ids)); [done|].
      rewrite elem_of_cons. split; [by intros [?|?]|by right].
Qed.

Lemma rejectEach_all (cs : list Change.t) :
  Editor.rejectEach cs = with_status rejected <$> cs.
Proof.
  unfold Editor.rejectEach. rewrite rejectChange_fold.
  apply list_fmap_ext. intros i c Hc.
  rewrite bool_decide_eq_true_2; [done|].
  apply list_elem_of_fmap. exists c. split; [done|]. by eapply list_elem_of_lookup_2.
Qed.

Lemma filter_all_rejected (cs : list Change.t) :
  filter (λ change, Change.status change = accepted) (with_status rejected <$> cs) = [] ∧
  filter (λ change, Change.status change = rejected) (with_status rejected <$> cs)
    = with_status rejected <$> cs.
Proof.
  induction cs as [|c cs [IH1 IH2]]; [done|]. rewrite fmap_cons. split.
  - by rewrite filter_cons_False.
  - rewrite filter_cons_True by done. by rewrite IH2.
Qed.

Lemma restore_fold i j A B d :
  swalk i j A B d → i = j → replace_only d →
  ∀ pre cs, length pre = i →
    Forall2 change_of (filter (λ l, DiffLine.type l ≠ T_equal) d) cs →
    fold_left apply_rejected (with_status rejected <$> cs) (pre ++ (Some <$> B))
    = pre ++ (Some <$> A).
Proof.
  unfold replace_only.
  induction 1 as [i j|i j b B d _ IH|i j a A d _ IH|i j a A B d _ IH
                 |i j a b A B d Hab HA _ IH|i j a b A B d Hab HA HB _ IH
                 |i j a b A B d Hab HA HB _ IH];
    intros Hij Hro pre cs Hpre Hcs; subst j;
    try (apply Forall_cons in Hro as [[Hty|[Hty _]] _]; by discriminate Hty).
  - rewrite filter_nil in Hcs. by apply Forall2_nil_inv_l in Hcs as ->.
  - apply Forall_cons in Hro as [_ Hro].
    rewrite filter_cons_False in Hcs by (by intros []).
    rewrite !fmap_cons, !(cons_middle _ pre), !app_assoc.
    apply IH; [done|done| |done]. rewrite length_app. simpl. lia.
  - apply Forall_cons in Hro as [[Hty|[_ Horig]] Hro]; [discriminate Hty|].
    rewrite filter_cons_True in Hcs by (intros ?; discriminate).
    apply Forall2_cons_inv_l in Hcs as (c & cs' & (_ & _ & Hoc & Hty & Hln) & Hcs & ->).
    simpl in Hoc, Hty, Hln, Horig.
    rewrite !fmap_cons. cbn [fold_left].
    replace (apply_rejected (pre ++ Some b :: (Some <$> B)) (with_status rejected c))
      with ((pre ++ [Some a]) ++ (Some <$> B)).
    { replace (pre ++ Some a :: (Some <$> A)) with ((pre ++ [Some a]) ++ (Some <$> A))
        by (by rewrite <- app_assoc).
      apply IH; [done|done| |done]. rewrite length_app. simpl. lia. }
    unfold apply_rejected, with_status. simpl. rewrite Hty, Hoc, Hln. simpl.
    rewrite Horig. simpl. unfold assign, or_zero. simpl.
    destruct (Z.ltb_spec (Z.of_nat i + 1 - 1) 0); [lia|].
    rewrite length_app. simpl.
    destruct (Z.ltb_spec (Z.of_nat i + 1 - 1) (Z.of_nat (length pre + S (length (Some <$> B)))));
      [|lia].
    replace (Z.to_nat (Z.of_nat i + 1 - 1)) with (length pre + 0) by lia.
    rewrite insert_app_r. simpl. by rewrite <- app_assoc.
Qed.

(** X7.  When the diff of two texts has only equal and replace entries and
    no replaced original line is empty, rejecting every change and
    applying the changes to the modified text gives the original text
    back. *)
Theorem reject_all_restores_original (original modified : string) :
  ∃ d, generateDiff original modified = Some d ∧
       (replace_only d →
        applyChanges modified (Editor.rejectEach (diffToChanges d)) = original).
Proof.
  destruct (DiffViewFacts.generateDiff_exists_swalk original modified) as (d & Hd & Hw).
  exists d. split; [done|]. intros Hro.
  rewrite rejectEach_all. unfold applyChanges.
  destruct (filter_all_rejected (diffToChanges d)) as [-> ->]. cbn [fold_left].
  pose proof (restore_fold 0 0 _ _ d Hw eq_refl Hro [] (diffToChanges d) eq_refl
                (ChangeFacts.diffToChanges_spec d)) as Hfold.
  rewrite !app_nil_l in Hfold. rewrite Hfold.
  apply ChangeFacts.join_lines_split.
Qed.

Lemma reject_all_restores_original_witness :
  let original := Str.join ["line1"; "line2"; "line3"] in
  let modified := Str.join ["line1"; "lineX"; "line3"] in
  ∃ d, generateDiff original modified = Some d ∧
       replace_only d ∧
       applyChanges modified (Editor.rejectEach (diffToChanges d)) = original.
Proof.
  intros original modified.
  destruct (reject_all_restores_original original modified) as (d & Hd & H).
  exists d. split; [done|].
  assert (replace_only d) as Hro.
  { vm_compute in Hd. injection Hd as <-. unfold replace_only.
    constructor; [by left|]. constructor; [right; split; reflexivity|].
    constructor; [by left|]. constructor. }
  split; [done|]. by apply H.
Defined.

(** X8.  [applyChanges] passes over every change that is pending, an
    accepted addition or modification, a rejected deletion, or a rejected
    modification whose original content is missing or empty: with only
    such changes the content comes back unchanged. *)
Theorem applyChanges_ignores_inert (content : string) (changes : list Change.t) :
  Forall inert changes → applyChanges content changes = content.
Proof. apply ChangeFacts.applyChanges_inert. Qed.

Lemma applyChanges_ignores_inert_witness :
  let changes :=
    [Change.mk "1" addition 1%Z (Some "x") None accepted;
     Change.mk "2" deletion 1%Z (Some "a") None rejected;
     Change.mk "3" modification 2%Z (Some "y") (Some "") rejected;
     Change.mk "4" modification 9%Z (Some "z") (Some "b") pending] in
  Forall inert changes ∧
  applyChanges (Str.join ["a"; "b"]) changes = Str.join ["a"; "b"].
Proof.
  intros changes.
  assert (Forall inert changes) as H.
  { constructor; [by unfold inert|]. constructor; [by left|].
    constructor; [by right|]. constructor; [by unfold inert|]. constructor. }
  split; [done|]. by apply applyChanges_ignores_inert.
Defined.

End ApplyFacts.

(** ** The editor hook: undo history *)

Module EditorFacts.
Import Editor.

Lemma at_index_nat (a : list string) (i : nat) : at_index a (Z.of_nat i) = a !! i.
Proof.
  unfold at_index. destruct (Z.ltb_spec (Z.of_nat i) 0); [lia|]. by rewrite Nat2Z.id.
Qed.

Lemma slice_to_nat (a : list string) (n : nat) : slice_to a (Z.of_nat n) = take n a.
Proof.
  unfold slice_to. destruct (Z.ltb_spec (Z.of_nat n) 0); [lia|]. by rewrite Nat2Z.id.
Qed.

Lemma updateContent_in_step (c : string) (s : History) : in_step (updateContent c s).
Proof.
  unfold in_step, updateContent. cbn [historyIndex history content].
  set (h := slice_to (history s) (historyIndex s + 1)).
  rewrite length_app. cbn [length].
  replace (Z.of_nat (length h + 1) - 1)%Z with (Z.of_nat (length h)) by lia.
  split_and!; [lia|lia|eauto|].
  rewrite at_index_nat, lookup_app_r by lia. by rewrite Nat.sub_diag.
Qed.

Lemma undo_in_step (s : History) : in_step s → in_step (undo s).
Proof.
  intros ([Hlo Hhi] & Hsome & Hc). unfold undo.
  destruct (Z.ltb_spec 0 (historyIndex s)) as [Hpos|]; [|done].
  unfold in_step. cbn [historyIndex history content].
  split_and!; [lia|lia| |done].
  replace (historyIndex s - 1)%Z with (Z.of_nat (Z.to_nat (historyIndex s - 1))) by lia.
  rewrite at_index_nat. apply lookup_lt_is_Some. lia.
Qed.

Lemma redo_in_step (s : History) : in_step s → in_step (redo s).
Proof.
  intros ([Hlo Hhi] & Hsome & Hc). unfold redo.
  destruct (Z.ltb_spec (historyIndex s) (Z.of_nat (length (history s)) - 1)) as [Hlt|]; [|done].
  unfold in_step. cbn [historyIndex history content].
  split_and!; [lia|lia| |done].
  replace (historyIndex s + 1)%Z with (Z.of_nat (Z.to_nat (historyIndex s + 1))) by lia.
  rewrite at_index_nat. apply lookup_lt_is_Some. lia.
Qed.

Lemma load_in_step (document : option Document.t) (s : History) : in_step (load document s).
Proof. destruct document; unfold in_step; simpl; split_and!; eauto; lia. Qed.

(** X9.  Once a document (or none) has been loaded, every sequence of
    loads, edits, undos and redos keeps the history in step: the index
    names an entry of the history and the content is that entry, so undo
    and redo never show an undefined content. *)
Theorem history_stays_in_step (document : option Document.t) (actions : list Action) :
  in_step (fold_left step actions (load document initial)).
Proof.
  assert (∀ s, in_step s → in_step (fold_left step actions s)) as H.
  { induction actions as [|a actions IH]; intros s Hs; [done|].
    cbn [fold_left]. apply IH.
    destruct a; simpl;
      auto using load_in_step, updateContent_in_step, undo_in_step, redo_in_step. }
  apply H, load_in_step.
Qed.

(** X10.  From a state in step, an edit followed by undo shows the content
    from before the edit, redo then gives the edited state back, and
    right after an edit there is nothing to redo: an edit made after an
    undo discards the undone entries. *)
Theorem undo_redo_after_edit (c : string) (s : History) :
  in_step s →
  content (undo (updateContent c s)) = content s ∧
  redo (undo (updateContent c s)) = updateContent c s ∧
  canUndo (updateContent c s) = true ∧
  canRedo (updateContent c s) = false ∧
  history (updateContent c s) = take (Z.to_nat (historyIndex s) + 1) (history s) ++ [c].
Proof.
  intros ([Hlo Hhi] & Hsome & Hc).
  set (n := Z.to_nat (historyIndex s)).
  assert (historyIndex s = Z.of_nat n) as Hn by lia.
  assert (n < length (history s)) as Hlt by lia.
  assert (updateContent c s =
          mkHistory (Some c) (take (n + 1) (history s) ++ [c]) (Z.of_nat n + 1)) as Hup.
  { unfold updateContent. rewrite Hn.
    replace (Z.of_nat n + 1)%Z with (Z.of_nat (n + 1)) by lia.
    rewrite slice_to_nat. f_equal.
    rewrite length_app, length_take. simpl. lia. }
  rewrite Hup. unfold undo, redo, canUndo, canRedo.
  cbn [historyIndex history content].
  assert (length (take (n + 1) (history s) ++ [c]) = n + 2) as Hlen.
  { rewrite length_app, length_take. simpl. lia. }
  destruct (Z.ltb_spec 0 (Z.of_nat n + 1)); [|lia].
  cbn [historyIndex history content]. rewrite Hlen.
  replace (Z.of_nat n + 1 - 1)%Z with (Z.of_nat n) by lia.
  destruct (Z.ltb_spec (Z.of_nat n) (Z.of_nat (n + 2) - 1)); [|lia].
  destruct (Z.ltb_spec (Z.of_nat n + 1) (Z.of_nat (n + 2) - 1)); [lia|].
  split_and!; try done.
  - rewrite at_index_nat, lookup_app_l, lookup_take_lt by (rewrite ?length_take; lia).
    by rewrite Hc, Hn, at_index_nat.
  - f_equal. replace (Z.of_nat n + 1)%Z with (Z.of_nat (n + 1)) by lia.
    rewrite at_index_nat, lookup_app_r by (rewrite length_take; lia).
    rewrite length_take. by replace (n + 1 - (n + 1) `min` length (history s)) with 0 by lia.
Qed.

Lemma undo_redo_after_edit_witness :
  let s := updateContent "b" (load None initial) in
  in_step s ∧
  content (undo (updateContent "c" s)) = Some "b" ∧
  redo (undo (updateContent "c" s)) = updateContent "c" s ∧
  canRedo (updateContent "c" (undo s)) = false.
Proof.
  intros s.
  assert (in_step s) as Hs by apply updateContent_in_step.
  destruct (undo_redo_after_edit "c" s Hs) as (H1 & H2 & _).
  split_and!; [done|exact H1|exact H2|reflexivity].
Defined.

End EditorFacts.

(** ** The change store: invariants and listings *)

Module StoreQueryFacts.
Import MemStorage StoreQueries.

Lemma keyed_insert_next {A} (id_of : A → Z) (next : Z) (m : gmap Z A) (x : A) :
  (1 ≤ next)%Z → id_of x = next → keyed id_of next m →
  keyed id_of (next + 1) (<[next := x]> m).
Proof.
  intros Hnext Hid Hm. apply map_Forall_insert_2; [split; [lia|done]|].
  intros k y Hk. destruct (Hm k y Hk) as [? ?]. split; [lia|done].
Qed.

Lemma keyed_update {A} (id_of : A → Z) (next : Z) (m : gmap Z A) (k : Z) (x y : A) :
  m !! k = Some x → id_of y = id_of x → keyed id_of next m →
  keyed id_of next (<[k := y]> m).
Proof.
  intros Hk Hid Hm. destruct (Hm k x Hk) as [? ?].
  apply map_Forall_insert_2; [split; [done|congruence]|done].
Qed.

Lemma run_op_well_formed (op : Op) (st : t) : well_formed st → well_formed (run_op op st).
Proof.
  intros (Hd & Hr & Hc & Hdocs & Hrevs & Hchs). destruct op; simpl.
  - split_and!; simpl; try done; try lia. by apply keyed_insert_next.
  - unfold updateDocument. destruct (documents st !! id) as [doc|] eqn:Hid; simpl.
    + split_and!; simpl; try done. by eapply keyed_update.
    + by split_and!.
  - split_and!; simpl; try done. by apply map_Forall_delete.
  - split_and!; simpl; try done; try lia. by apply keyed_insert_next.
  - unfold updateRevision. destruct (revisions st !! id) as [rev|] eqn:Hid; simpl.
    + split_and!; simpl; try done. by eapply keyed_update.
    + by split_and!.
  - split_and!; simpl; try done; try lia. by apply keyed_insert_next.
  - unfold updateChange. destruct (changes st !! id) as [ch|] eqn:Hid; simpl.
    + split_and!; simpl; try done. by eapply keyed_update.
    + by split_and!.
  - unfold updateChangeStatus, updateChange.
    destruct (changes st !! id) as [ch|] eqn:Hid; simpl.
    + split_and!; simpl; try done. by eapply keyed_update.
    + by split_and!.
Qed.

Lemma run_well_formed (ops : list Op) : ∀ st, well_formed st → well_formed (run ops st).
Proof.
  unfold run. induction ops as [|op ops IH]; intros st Hst; [done|].
  cbn [fold_left]. by apply IH, run_op_well_formed.
Qed.

Lemma new_well_formed : well_formed new.
Proof. unfold well_formed, keyed, new. simpl. split_and!; try lia; apply map_Forall_empty. Qed.

(** X11.  In every store that a sequence of store calls leads to from a
    fresh one, each document, revision and change sits under its own id,
    and every id in use is at least 1 and below the counter that hands out
    the next id; updates never change an id. *)
Theorem reachable_store_well_formed (ops : list Op) : well_formed (run ops new).
Proof. apply run_well_formed, new_well_formed. Qed.

(** X12.  In such a store [createDocument] never overwrites: the id it
    hands out was not in use, the new document can be read back under it
    with the fields given, every other id reads as before, and the number
    of documents grows by one. *)
Theorem createDocument_fresh_and_readable (ops : list Op)
    (insertDocument : InsertDocument.t) (now : Date) :
  let st := run ops new in
  let document := fst (createDocument insertDocument now st) in
  let st' := snd (createDocument insertDocument now st) in
  getDocument (Document.id document) st = None ∧
  getDocument (Document.id document) st' = Some document ∧
  (∀ id, id ≠ Document.id document → getDocument id st' = getDocument id st) ∧
  size (documents st') = S (size (documents st)) ∧
  Document.content document = InsertDocument.content insertDocument ∧
  Document.createdAt document = now ∧ Document.updatedAt document = now.
Proof.
  intros st document st'.
  destruct (reachable_store_well_formed ops) as (_ & _ & _ & Hdocs & _).
  fold st in Hdocs.
  assert (documents st !! currentDocumentId st = None) as Hfresh.
  { destruct (documents st !! currentDocumentId st) as [doc|] eqn:Hk; [|done].
    destruct (Hdocs _ _ Hk). lia. }
  unfold getDocument. subst document st'. simpl. split_and!; try done.
  - apply lookup_insert_eq.
  - intros id Hid. by apply lookup_insert_ne.
  - by apply map_size_insert_None.
Qed.

Lemma absent_stays_absent (op : Op) (st : t) (id : Z) :
  documents st !! id = None → (id < currentDocumentId st)%Z →
  documents (run_op op st) !! id = None ∧ (id < currentDocumentId (run_op op st))%Z.
Proof.
  intros Habs Hlt. destruct op; simpl; try done.
  - split; [|lia]. rewrite <- Habs. apply lookup_insert_ne. lia.
  - unfold updateDocument. destruct (documents st !! id0) as [doc|] eqn:Hid; simpl; [|done].
    split; [|done]. rewrite <- Habs. apply lookup_insert_ne. intros ->. congruence.
  - split; [|done]. destruct (decide (id0 = id)) as [->|Hne].
    + apply lookup_delete_eq.
    + rewrite <- Habs. by apply lookup_delete_ne.
  - unfold updateRevision. by destruct (revisions st !! id0).
  - unfold updateChange. by destruct (changes st !! id0).
  - unfold updateChangeStatus, updateChange. by destruct (changes st !! id0).
Qed.

(** X13.  A deleted document never comes back: after [deleteDocument]
    removed a document of such a store, no later sequence of store calls
    makes its id readable again. *)
Theorem deleted_document_stays_deleted (ops later : list Op) (id : Z) :
  let st := run ops new in
  fst (deleteDocument id st) = true →
  getDocument id (run later (snd (deleteDocument id st))) = None.
Proof.
  intros st Hdel.
  destruct (reachable_store_well_formed ops) as (_ & _ & _ & Hdocs & _).
  fold st in Hdocs. unfold deleteDocument in Hdel. simpl in Hdel.
  apply bool_decide_eq_true in Hdel as [doc Hdoc].
  destruct (Hdocs _ _ Hdoc) as [[_ Hlt] _].
  assert (∀ st0, documents st0 !! id = None → (id < currentDocumentId st0)%Z →
                 documents (run later st0) !! id = None) as H.
  { unfold run. induction later as [|op later IH]; intros st0 Habs Hlt0; [done|].
    cbn [fold_left]. destruct (absent_stays_absent op st0 id Habs Hlt0). by apply IH. }
  unfold getDocument. apply H; simpl; [apply lookup_delete_eq|done].
Qed.

Lemma deleted_document_stays_deleted_witness :
  let doc := InsertDocument.mk "a.txt" "text" None None in
  let ops := [OpCreateDocument doc 0%Z; OpCreateDocument doc 1%Z] in
  let later := [OpCreateDocument doc 2%Z; OpUpdateDocument 1%Z
                  (PartialDocument.mk None (Some "new") None None) 3%Z] in
  fst (deleteDocument 1%Z (run ops new)) = true ∧
  getDocument 1%Z (run later (snd (deleteDocument 1%Z (run ops new)))) = None.
Proof.
  intros doc ops later.
  assert (fst (deleteDocument 1%Z (run ops new)) = true) as H by (vm_compute; reflexivity).
  split; [exact H|]. by apply (deleted_document_stays_deleted ops later 1%Z).
Defined.

Lemma sorted_filter {A} (R : relation A) (P : A → Prop) `{∀ x, Decision (P x)}
    (l : list A) :
  StronglySorted R l → StronglySorted R (filter P l).
Proof.
  induction 1 as [|x l Hl IH Hx]; [constructor|].
  destruct (decide (P x)).
  - rewrite filter_cons_True by done. constructor; [done|].
    apply Forall_forall. intros y [_ Hy]%list_elem_of_filter.
    by eapply Forall_forall in Hx.
  - by rewrite filter_cons_False.
Qed.

Lemma history_snoc (ops : list Op) (op : Op) :
  history (ops ++ [op]) =
  (run_op op (history ops).1, track_op op (history ops).1 (history ops).2).
Proof. unfold history. by rewrite fold_left_app. Qed.

Lemma history_store (ops : list Op) : (history ops).1 = run ops new.
Proof.
  induction ops as [|op ops IH] using rev_ind; [done|].
  rewrite history_snoc. simpl. rewrite IH. unfold run. by rewrite fold_left_app.
Qed.

(** A new key, above every key in use, goes last. *)
Lemma in_key_order_insert_next {A} (id_of : A → Z) (next : Z) (m : gmap Z A)
    (keys : list Z) (x : A) :
  keyed id_of next m → in_key_order m keys →
  in_key_order (<[next := x]> m) (order_set next keys).
Proof.
  intros Hm [Hs Hdom].
  assert (Forall (λ k, (k < next)%Z) keys) as Hlt.
  { apply Forall_forall. intros k [y Hk]%Hdom. destruct (Hm k y Hk). lia. }
  assert (next ∉ keys) as Hnotin.
  { intros Hin. rewrite Forall_forall in Hlt. specialize (Hlt next Hin). lia. }
  unfold order_set. rewrite bool_decide_eq_false_2 by done. split.
  - apply StronglySorted_app_2; [|done|repeat constructor].
    intros k1 k2 Hk1 ->%list_elem_of_singleton.
    rewrite Forall_forall in Hlt. by apply Hlt.
  - intros k. rewrite elem_of_app, list_elem_of_singleton, Hdom.
    destruct (decide (k = next)) as [->|Hne].
    + rewrite lookup_insert_eq. split; [eauto|by right].
    + rewrite lookup_insert_ne by done. split; [by intros [?|?]|by left].
Qed.

(** A key that is present keeps its place. *)
Lemma in_key_order_update {A} (m : gmap Z A) (keys : list Z) (k : Z) (x y : A) :
  m !! k = Some x → in_key_order m keys →
  in_key_order (<[k := y]> m) (order_set k keys).
Proof.
  intros Hk [Hs Hdom].
  assert (k ∈ keys) as Hin by (apply Hdom; eauto).
  unfold order_set. rewrite bool_decide_eq_true_2 by done. split; [done|].
  intros k'. rewrite Hdom. destruct (decide (k' = k)) as [->|Hne].
  - rewrite lookup_insert_eq, Hk. split; eauto.
  - by rewrite lookup_insert_ne.
Qed.

Lemma in_key_order_delete {A} (m : gmap Z A) (keys : list Z) (k : Z) :
  in_key_order m keys → in_key_order (delete k m) (order_delete k keys).
Proof.
  intros [Hs Hdom]. unfold order_delete. split; [by apply sorted_filter|].
  intros k'. rewrite list_elem_of_filter, Hdom.
  destruct (decide (k' = k)) as [->|Hne].
  - rewrite lookup_delete_eq. split; [by intros [? _]|by intros [? ?]].
  - rewrite lookup_delete_ne by done. split; [by intros [_ ?]|done].
Qed.

(** The key orders of a reachable store list the keys in use by
    increasing key: ids are handed out in increasing order and a deleted
    id is never written again. *)
Lemma history_in_key_order (ops : list Op) :
  in_key_order (documents (history ops).1) (Orders.documents (history ops).2) ∧
  in_key_order (revisions (history ops).1) (Orders.revisions (history ops).2) ∧
  in_key_order (changes (history ops).1) (Orders.changes (history ops).2).
Proof.
  induction ops as [|op ops (IHd & IHr & IHc)] using rev_ind.
  - assert (∀ A, in_key_order (∅ : gmap Z A) []) as Hempty.
    { intros A. split; [constructor|]. intros k. rewrite lookup_empty.
      split; [by intros ?%elem_of_nil|by intros [? ?]]. }
    simpl. split_and!; apply Hempty.
  - rewrite history_snoc.
    pose proof (reachable_store_well_formed ops) as (_ & _ & _ & Hdocs & Hrevs & Hchs).
    rewrite <- history_store in Hdocs, Hrevs, Hchs.
    destruct (history ops) as [st o]. simpl in *.
    destruct op; simpl.
    + split_and!; [|done..]. by eapply in_key_order_insert_next.
    + unfold updateDocument. destruct (documents st !! id) as [doc|] eqn:Hid; simpl.
      * split_and!; [|done..]. by eapply in_key_order_update.
      * by split_and!.
    + split_and!; [|done..]. by apply in_key_order_delete.
    + split_and!; [done| |done]. by eapply in_key_order_insert_next.
    + unfold updateRevision. destruct (revisions st !! id) as [rev|] eqn:Hid; simpl.
      * split_and!; [done| |done]. by eapply in_key_order_update.
      * by split_and!.
    + split_and!; [done..|]. by eapply in_key_order_insert_next.
    + unfold updateChange. destruct (changes st !! id) as [ch|] eqn:Hid; simpl.
      * split_and!; [done..|]. by eapply in_key_order_update.
      * by split_and!.
    + unfold updateChangeStatus, updateChange.
      destruct (changes st !! id) as [ch|] eqn:Hid; simpl.
      * split_and!; [done..|]. by eapply in_key_order_update.
      * by split_and!.
Qed.

Lemma elem_of_values {A} (m : gmap Z A) (keys : list Z) (x : A) :
  in_key_order m keys → x ∈ values m keys ↔ ∃ k, m !! k = Some x.
Proof.
  intros [_ Hdom]. unfold values. rewrite list_elem_of_omap. split.
  - intros (k & _ & Hk). eauto.
  - intros [k Hk]. exists k. split; [|done]. apply Hdom. eauto.
Qed.

Lemma values_sorted {A} (id_of : A → Z) (next : Z) (m : gmap Z A) (keys : list Z) :
  keyed id_of next m → StronglySorted Z.lt keys →
  StronglySorted (λ x y, (id_of x < id_of y)%Z) (values m keys).
Proof.
  intros Hm Hs. unfold values.
  induction Hs as [|k keys Hs IH Hk]; [constructor|].
  cbn [omap list_omap]. destruct (m !! k) as [x|] eqn:Hx; [|done].
  constructor; [done|].
  apply Forall_forall. intros y (k' & Hk' & Hy)%list_elem_of_omap.
  rewrite Forall_forall in Hk. specialize (Hk k' Hk').
  destruct (Hm k x Hx) as [_ ->]. destruct (Hm k' y Hy) as [_ ->]. done.
Qed.

(** X14.  In a store reached by any sequence of calls on a new store
    (with each [Map] iterated in its insertion order),
    [getRevisionsByDocument] lists exactly the stored revisions of the
    given document, each once and by increasing id; a [deleteDocument] call
    for the document does not remove them, they stay listed under its
    id. *)
Theorem getRevisionsByDocument_lists_revisions (ops : list Op) (documentId : Z) :
  let st := (history ops).1 in
  let o := (history ops).2 in
  let after := history (ops ++ [OpDeleteDocument documentId]) in
  st = run ops new ∧
  (∀ revision, revision ∈ getRevisionsByDocument documentId st o ↔
     ∃ id, getRevision id st = Some revision ∧ Revision.documentId revision = documentId) ∧
  StronglySorted (λ x y, (Revision.id x < Revision.id y)%Z)
    (getRevisionsByDocument documentId st o) ∧
  getRevisionsByDocument documentId after.1 after.2 = getRevisionsByDocument documentId st o.
Proof.
  intros st o after.
  destruct (history_in_key_order ops) as (_ & Horder & _). fold st o in Horder.
  split_and!.
  - apply history_store.
  - intros revision. unfold getRevisionsByDocument, getRevision.
    rewrite list_elem_of_filter, (elem_of_values _ _ _ Horder).
    split; [intros [? [id ?]]|intros [id [? ?]]]; eauto.
  - destruct (reachable_store_well_formed ops) as (_ & _ & _ & _ & Hrevs & _).
    rewrite <- history_store in Hrevs. fold st in Hrevs.
    unfold getRevisionsByDocument. apply sorted_filter.
    eapply values_sorted; [done|]. by destruct Horder.
  - subst after. by rewrite history_snoc.
Qed.

End StoreQueryFacts.

(** ** Request handlers *)

Module RouteFacts.
Import MemStorage Routes RouteViews.

(** X15.  The ai-edit handler answers 200 with a body or a message with
    400, 404 or 500.  With a message the store is untouched.  It answers
    200 only when the document is stored and the editing service, asked
    with the document's content, answered with proposals: the body then
    returns those proposals and the service's summary as they came, and
    exactly one revision was written, under the id the revision counter
    had; it holds the edited content for the requested document, is not
    accepted, and its changes are the proposals in order with only the id
    (freshly drawn) and the status (pending) replaced.  Documents and change
    records are never touched.  And it does answer 200 whenever the request
    is well formed, the document is stored and the service answers with
    proposals. *)
Theorem aiEdit_store_effect performEdit random_id id instructions editType provider now st :
  let out := aiEdit performEdit random_id id instructions editType provider now st in
  match out with
  | (Json code body, st') =>
      code = 200 ∧
      (∃ docId document editResponse stored,
         id = Some docId ∧ getDocument docId st = Some document ∧
         performEdit (default "" editType) (Document.content document)
           (default "" instructions) (default "openai" provider) = Some editResponse ∧
         EditResponse.changes editResponse = Some (AiEditBody.changes body) ∧
         AiEditBody.summary body = EditResponse.summary editResponse ∧
         AiEditBody.revision body =
           Revision.mk (currentRevisionId st) docId (EditResponse.editedContent editResponse)
             (Some stored) (Some false) now ∧
         Forall2 stored_for (AiEditBody.changes body) stored ∧
         Change.id <$> stored = random_id <$> seq 0 (length (AiEditBody.changes body))) ∧
      revisions st' = <[currentRevisionId st := AiEditBody.revision body]> (revisions st) ∧
      currentRevisionId st' = (currentRevisionId st + 1)%Z ∧
      documents st' = documents st ∧ changes st' = changes st
  | (Message code _, st') => st' = st ∧ code ∈ [400; 404; 500]
  end ∧
  ∀ docId document editResponse proposals,
    id = Some docId → getDocument docId st = Some document →
    truthy_string instructions = true →
    default "" editType ∈ ["developmental"; "line"] →
    default "openai" provider ∈ ["openai"; "google"] →
    performEdit (default "" editType) (Document.content document)
      (default "" instructions) (default "openai" provider) = Some editResponse →
    EditResponse.changes editResponse = Some proposals →
    ∃ revision,
      fst out = Json 200 (AiEditBody.mk revision (EditResponse.summary editResponse) proposals).
Proof.
  intros out. split.
  - subst out. unfold aiEdit.
    repeat case_match; simplify_eq/=;
      try (split; [done|]; set_solver).
    unfold createRevision in *. simplify_eq/=.
    match goal with H : id ≫= _ = Some _ |- _ => rename H into Hid end.
    destruct id as [id|]; [|done]. simpl in Hid.
    destruct (getDocument id st) as [doc|] eqn:Hdoc; [|done]. simplify_eq/=.
    split_and!; try done.
    eexists _, _, _, _. split_and!; try done.
    + apply ChangeFacts.revision_changes_stored_for.
    + unfold revision_changes. rewrite fmap_imap.
      apply list_eq. intros k. rewrite list_lookup_imap, list_lookup_fmap.
      destruct (decide (k < length l)) as [Hk|Hk].
      * rewrite lookup_seq_lt by done. simpl.
        destruct (lookup_lt_is_Some_2 l k Hk) as [c ->]. done.
      * rewrite lookup_seq_ge by lia. by rewrite lookup_ge_None_2 by lia.
  - intros docId document editResponse proposals -> Hdoc Hins Hty Hprov Hedit Hchanges.
    subst out.
    rewrite (ChangeFacts.aiEdit_answered performEdit random_id docId document instructions
               editType provider now st editResponse proposals) by done.
    by eexists.
Qed.

Lemma aiEdit_store_effect_witness :
  let st := snd (createDocument (InsertDocument.mk "draft" "a long sentence" None None)
                   3%Z MemStorage.new) in
  let proposals := [Change.mk "x" deletion 1 (Some "a long sentence") None rejected;
                    Change.mk "y" addition 1 (Some "short") None pending] in
  let performEdit (editType content instructions provider : string) :=
    if bool_decide (editType = "developmental")
    then Some (EditResponse.mk "short" (Some proposals) content)
    else None in
  ∃ revision,
    fst (aiEdit performEdit pretty (Some 1%Z) (Some "shorten") (Some "developmental")
           (Some "google") 9%Z st)
    = Json 200 (AiEditBody.mk revision "a long sentence" proposals).
Proof.
  intros st proposals performEdit.
  apply (proj2 (aiEdit_store_effect performEdit pretty (Some 1%Z) (Some "shorten")
                  (Some "developmental") (Some "google") 9%Z st)
           1%Z (fst (createDocument (InsertDocument.mk "draft" "a long sentence" None None)
                       3%Z MemStorage.new))
           (EditResponse.mk "short" (Some proposals) "a long sentence") proposals).
  - reflexivity.
  - reflexivity.
  - reflexivity.
  - apply list_elem_of_here.
  - apply list_elem_of_further, list_elem_of_here.
  - reflexivity.
  - reflexivity.
Defined.

(** X16.  The status handler answers 404 and leaves the store untouched
    when the id is not a number or names no stored change; and sending the
    same request twice gives the same answer and the same store as sending
    it once. *)
Theorem patchChangeStatus_unknown_and_repeated (id : option Z) (status : option string)
    (st : MemStorage.t) :
  (id ≫= (λ id, getChange id st) = None → status ∈ [Some "accepted"; Some "rejected"] →
   patchChangeStatus id status st = (Message 404 "Change not found", st)) ∧
  patchChangeStatus id status (snd (patchChangeStatus id status st))
    = patchChangeStatus id status st.
Proof.
  unfold patchChangeStatus, getChange. split.
  - intros Hid Hst.
    assert (∃ s, status = Some s ∧ s ∈ ["accepted"; "rejected"]) as (s & -> & Hs).
    { set_unfold. destruct Hst as [->|[->|[]]]; eexists; (split; [done|]); set_solver. }
    rewrite bool_decide_eq_true_2 by done.
    destruct id as [id|]; [|done]. simpl in Hid.
    unfold updateChangeStatus, updateChange. by rewrite Hid.
  - destruct status as [s|]; [|done].
    case_bool_decide; [|done].
    destruct id as [id|]; [|done].
    unfold updateChangeStatus, updateChange.
    destruct (changes st !! id) as [ch|] eqn:Hch; simpl.
    + rewrite lookup_insert_eq. simpl. do 2 f_equal.
      unfold set_changes. simpl. by rewrite insert_insert_eq.
    + by rewrite Hch.
Qed.

Lemma patchChangeStatus_unknown_and_repeated_witness :
  patchChangeStatus (Some 7%Z) (Some "accepted") MemStorage.new
    = (Message 404 "Change not found", MemStorage.new) ∧
  patchChangeStatus None (Some "rejected") MemStorage.new
    = (Message 404 "Change not found", MemStorage.new).
Proof.
  split.
  - apply (proj1 (patchChangeStatus_unknown_and_repeated
                    (Some 7%Z) (Some "accepted") MemStorage.new)); [reflexivity|set_solver].
  - apply (proj1 (patchChangeStatus_unknown_and_repeated
                    None (Some "rejected") MemStorage.new)); [reflexivity|set_solver].
Defined.

End RouteFacts.

(** ** The provider gateway: further facts *)

Module GatewayMoreFacts.
Import JS Gateway Providers GatewayFacts.

Section more_gateway_facts.
Context (JSON_parse : string → Result JSON).

(** The requests of a call to [getAIResponse]: those of the first pass,
    then at most the one to google. *)
Lemma getAIResponse_requests (prompt : string) (provider : AIProvider)
    (temperature : Q) (useJsonFormat : bool) (w : World) :
  ∃ r w' extra,
    getAIResponse JSON_parse prompt provider temperature useJsonFormat w = Some (r, w') ∧
    calls w' = calls w ++ requests provider prompt ++ extra ∧
    (extra = [] ∨
     (extra = [(google, prompt)] ∧ provider ≠ google ∧
      truthy_string (GOOGLE_AI_API_KEY w) = true)).
Proof.
  unfold getAIResponse. cbn [getAIResponse_fuel].
  destruct (switch_requests JSON_parse prompt provider w) as [Hcalls Hkey].
  destruct (getAIResponse_switch JSON_parse prompt provider w) as [[v|error] w1];
    cbn [fst snd] in *.
  - exists (Ok v), w1, []. rewrite app_nil_r. auto.
  - replace (GOOGLE_AI_API_KEY (log_provider_error provider error w1))
      with (GOOGLE_AI_API_KEY w) by done.
    destruct (bool_decide (provider ≠ google)) eqn:Hp;
      [|exists (Throw error), (log_provider_error provider error w1), [];
        rewrite app_nil_r; auto].
    destruct (truthy_string (GOOGLE_AI_API_KEY w)) eqn:Hk;
      [|exists (Throw error), (log_provider_error provider error w1), [];
        rewrite app_nil_r; auto].
    cbn [andb].
    set (w3 := log_fallback (log_provider_error provider error w1)).
    destruct (switch_requests JSON_parse prompt google w3) as [Hcalls' _].
    assert (calls w3 = calls w ++ requests provider prompt) as Hw3 by done.
    apply bool_decide_eq_true in Hp.
    destruct (getAIResponse_switch JSON_parse prompt google w3) as [[v'|error'] w4];
      cbn [fst snd] in *.
    + exists (Ok v'), w4, [(google, prompt)]. split; [done|].
      split; [by rewrite Hcalls', Hw3, <- app_assoc|auto].
    + rewrite bool_decide_eq_false_2 by (by intros []). cbn [andb].
      exists (Throw error'), (log_provider_error google error' w4), [(google, prompt)].
      split; [done|]. split; [|auto].
      change (calls (log_provider_error google error' w4)) with (calls w4).
      by rewrite Hcalls', Hw3, <- app_assoc.
Qed.

Lemma getOptimalProvider_cases (analysisType : string) :
  getOptimalProvider analysisType ∈
    [anthropic; openai; google; cohere; perplexity; huggingface].
Proof.
  unfold getOptimalProvider.
  repeat (match goal with |- context [if ?b then _ else _] => destruct b end);
    repeat first [apply list_elem_of_here | apply list_elem_of_further].
Qed.

(** X17.  [getOptimalProvider] always names one of the six providers that
    have a binding, never azure or an unknown name, so a call routed by it
    starts with a request to the chosen provider with the given prompt and
    is followed by at most one request, to google; for an analysis type
    routed to google there is exactly one request. *)
Theorem getOptimalProvider_routes_to_vendor (analysisType prompt : string)
    (temperature : Q) (useJsonFormat : bool) (w : World) :
  let provider := getOptimalProvider analysisType in
  provider ∈ [anthropic; openai; google; cohere; perplexity; huggingface] ∧
  ∃ r w' extra,
    getAIResponse JSON_parse prompt provider temperature useJsonFormat w = Some (r, w') ∧
    calls w' = calls w ++ (provider, prompt) :: extra ∧
    (extra = [] ∨ (extra = [(google, prompt)] ∧ provider ≠ google)).
Proof.
  intros provider. pose proof (getOptimalProvider_cases analysisType) as Hp.
  fold provider in Hp. split; [done|].
  destruct (getAIResponse_requests prompt provider temperature useJsonFormat w)
    as (r & w' & extra & Hr & Hcalls & Hextra).
  exists r, w', extra. split; [done|]. split.
  - rewrite Hcalls. f_equal.
    set_unfold. destruct Hp as [->|[->|[->|[->|[->|[->|[]]]]]]]; done.
  - destruct Hextra as [?|(? & ? & _)]; auto.
Qed.

(** X18.  [parseAIResponseJSON] has two outcomes only.  It returns what
    [JSON.parse] makes of the cleaned text and then it has logged nothing;
    or it throws the one fixed error, whatever went wrong, a missing text
    included, after writing two console entries, the second of which is
    the raw text; it never asks a vendor. *)
Theorem parseAIResponseJSON_outcomes (responseText : option string) (w : World) :
  match parseAIResponseJSON JSON_parse responseText w with
  | (Ok v, w') =>
      w' = w ∧ ∃ raw, responseText = Some raw ∧ JSON_parse (Str.strip_fence raw) = Ok v
  | (Throw e, w') =>
      e = parse_failure ∧ calls w' = calls w ∧
      ∃ first, console w' = console w ++ [first; [CStr (Some "Raw response:"); CStr responseText]]
  end.
Proof.
  destruct responseText as [raw|].
  - destruct (JSON_parse (Str.strip_fence raw)) as [v|e] eqn:H.
    + rewrite (parse_ok _ _ _ _ H). eauto.
    + rewrite (parse_fail _ _ _ _ H). split_and!; [done|done|]. eexists. reflexivity.
  - rewrite parse_undefined. split_and!; [done|done|]. eexists. reflexivity.
Qed.

End more_gateway_facts.

Lemma prefix_cons_ne (a b : ascii) (p s : string) :
  Ascii.eqb b a = false → String.prefix (String a p) (String b s) = false.
Proof.
  intros Hab.
  change (String.prefix (String a p) (String b s))
    with (if ascii_dec a b then String.prefix p s else false).
  destruct (ascii_dec a b) as [->|]; [|done]. by rewrite Ascii.eqb_refl in Hab.
Qed.

Lemma closes_here_plain (c : ascii) (s : string) :
  Ascii.eqb c backtick = false → Str.closes_here (String c s) = false.
Proof.
  intros Hc. unfold Str.closes_here, Str.fence_close.
  by rewrite (prefix_cons_ne _ _ _ _ Hc).
Qed.

Lemma cut_close_plain (s : string) : no_backtick s = true → Str.cut_close s = s.
Proof.
  induction s as [|c s IH]; [done|]. cbn [no_backtick].
  intros [Hc Hs]%andb_true_iff. apply negb_true_iff in Hc.
  cbn [Str.cut_close]. rewrite closes_here_plain by done. by rewrite IH.
Qed.

Lemma prefix_open_plain (s rest : string) :
  no_backtick s = true → s ≠ "" → String.prefix Str.fence_open (s +:+ rest) = false.
Proof.
  destruct s as [|c s]; [done|]. cbn [no_backtick].
  intros [Hc _]%andb_true_iff _. apply negb_true_iff in Hc.
  rewrite append_cons. unfold Str.fence_open. by apply prefix_cons_ne.
Qed.

Lemma prefix_open_close (w : string) :
  Str.all_space w = true →
  String.prefix Str.fence_open (Str.fence_close +:+ w) = false.
Proof.
  intros Hw. unfold Str.fence_open, Str.fence_close. rewrite !append_cons, append_nil.
  destruct w as [|c w]; [reflexivity|].
  cbn [Str.all_space] in Hw. apply andb_true_iff in Hw as [Hc _].
  change (String.prefix (String "j" "son") (String c w) = false).
  apply prefix_cons_ne. destruct (Ascii.eqb_spec c "j") as [->|]; [done|done].
Qed.

(** X19.  A text without a backtick passes through the cleaning
    unchanged; with only an opening json fence before it, or only a
    closing fence after it, the fence and the whitespace behind the fence
    are removed and the text itself is left. *)
Theorem strip_fence_plain_text (body w : string) :
  no_backtick body = true → Str.all_space w = true →
  Str.strip_fence body = body ∧
  (Str.starts_clean body = true → Str.strip_fence (Str.fence_open +:+ w +:+ body) = body) ∧
  Str.strip_fence (body +:+ Str.fence_close +:+ w) = body.
Proof.
  intros Hbody Hw. split_and!.
  - unfold Str.strip_fence.
    destruct body as [|c body]; [done|].
    pose proof (prefix_open_plain (String c body) "" Hbody) as Hp.
    replace (String c body +:+ "") with (String c body) in Hp.
    + rewrite Hp by done. by apply cut_close_plain.
    + clear. generalize (String c body). intros s.
      induction s as [|x s IH]; [done|]. by rewrite append_cons, <- IH.
  - intros Hclean. unfold Str.strip_fence. rewrite prefix_append.
    change (Str.drop_chars 7 (Str.fence_open +:+ w +:+ body)) with (w +:+ body).
    rewrite skip_space_app by done. by apply cut_close_plain.
  - unfold Str.strip_fence.
    replace (String.prefix Str.fence_open (body +:+ Str.fence_close +:+ w)) with false.
    + by apply cut_close_fence.
    + symmetry. destruct body as [|c body].
      * rewrite append_nil. by apply prefix_open_close.
      * by apply prefix_open_plain.
Qed.

Lemma strip_fence_plain_text_witness :
  Str.strip_fence "{}" = "{}" ∧
  Str.strip_fence (Str.fence_open +:+ Enhanced.nl +:+ "{}") = "{}" ∧
  Str.strip_fence ("{}" +:+ Str.fence_close +:+ Enhanced.nl) = "{}".
Proof.
  destruct (strip_fence_plain_text "{}" Enhanced.nl eq_refl eq_refl) as (H1 & H2 & H3).
  split_and!; [exact H1|by apply H2|exact H3].
Defined.

End GatewayMoreFacts.

(** ** Editing and analysis services *)

Module ServiceFacts.
Import JS Providers Services GatewayFacts.

Section service_facts.
Context (JSON_parse : string → Result JSON) (JSON_stringify : JSON → string).

Lemma throw_requests {A} (e : Error) : makes_requests (@throw A e) [].
Proof. intros w. simpl. by rewrite app_nil_r. Qed.

Lemma enhanced_requests (prompt : string) (p : AIProvider) (temperature : Q)
    (useJsonFormat : bool) :
  makes_requests (Enhanced.getAIResponse JSON_parse prompt p temperature useJsonFormat)
    (asks prompt p).
Proof.
  destruct p; unfold Enhanced.getAIResponse, asks, supported;
    try apply throw_requests;
    apply request_then_requests; intros t; apply parse_requests.
Qed.

(** X20.  When a vendor answers without a text, openai, anthropic and
    huggingface are treated as if they had answered the text of the empty
    object, so the pass yields whatever [JSON.parse] makes of that text,
    while google, cohere and perplexity make the pass throw the parse
    error. *)
Theorem missing_reply_text (prompt : string) (p : AIProvider) (w : World) :
  sdk w (length (calls w)) p prompt = Text None →
  let w1 := mkWorld (GOOGLE_AI_API_KEY w) (sdk w) (calls w ++ [(p, prompt)]) (console w) in
  (text_defaulted p = true →
   Gateway.getAIResponse_switch JSON_parse prompt p w =
   Gateway.parseAIResponseJSON JSON_parse (Some "{}") w1 ∧
   ∀ v, JSON_parse "{}" = Ok v →
        Gateway.getAIResponse_switch JSON_parse prompt p w = (Ok v, w1)) ∧
  (text_required p = true →
   Gateway.getAIResponse_switch JSON_parse prompt p w =
   (Throw parse_failure, parse_failure_logged w1 replace_of_undefined None)).
Proof.
  intros Hreply w1. split.
  - intros Hp.
    assert (Gateway.getAIResponse_switch JSON_parse prompt p w =
            Gateway.parseAIResponseJSON JSON_parse (Some "{}") w1) as Heq.
    { destruct p; try discriminate Hp;
        unfold Gateway.getAIResponse_switch, mbind, M_bind, bind, request;
        by rewrite Hreply. }
    split; [done|]. intros v Hv. rewrite Heq. by apply parse_ok.
  - intros Hp.
    destruct p; try discriminate Hp;
      unfold Gateway.getAIResponse_switch, mbind, M_bind, bind, request;
      rewrite Hreply; apply parse_undefined.
Qed.

(** X21.  [getAIResponse] of the services file asks the named provider
    once when it is openai, google, anthropic or cohere and asks nobody
    for any other name, which it refuses by name; an error thrown by the
    vendor comes back as it is: nothing is retried, whether or not the
    key for google is set. *)
Theorem enhanced_getAIResponse_no_fallback (prompt : string) (p : AIProvider)
    (temperature : Q) (useJsonFormat : bool) (w : World) :
  makes_requests (Enhanced.getAIResponse JSON_parse prompt p temperature useJsonFormat)
    (asks prompt p) ∧
  (supported p = false →
   Enhanced.getAIResponse JSON_parse prompt p temperature useJsonFormat w =
   (Throw (mkError ("Unsupported AI provider: " +:+ provider_name p)), w)) ∧
  (∀ e, supported p = true → sdk w (length (calls w)) p prompt = Throws e →
        Enhanced.getAIResponse JSON_parse prompt p temperature useJsonFormat w =
        (Throw e, mkWorld (GOOGLE_AI_API_KEY w) (sdk w) (calls w ++ [(p, prompt)]) (console w))).
Proof.
  split_and!.
  - apply enhanced_requests.
  - intros Hp. by destruct p.
  - intros e Hp Hreply.
    destruct p; try discriminate Hp;
      unfold Enhanced.getAIResponse, mbind, M_bind, bind, request; by rewrite Hreply.
Qed.

Section consensus_log.
Context (analysisFunction : string → AIProvider → M JSON).
Context (ask : AIProvider → list (AIProvider * string)).

Lemma collect_requests (content : string) providers w analyses w1 :
  (∀ p, makes_requests (analysisFunction content p) (ask p)) →
  Enhanced.collect analysisFunction content providers w analyses w1 →
  calls w1 = calls w ++ mjoin (ask <$> providers).
Proof.
  intros Hask.
  induction 1 as [w|p providers analysis w w' analyses w'' Hp _ IH
                 |p providers error w w' analyses w'' Hp _ IH].
  - simpl. by rewrite app_nil_r.
  - destruct (Hask p w) as [Hc _]. rewrite Hp in Hc. simpl in Hc.
    rewrite IH, Hc, fmap_cons. simpl. by rewrite <- app_assoc.
  - destruct (Hask p w) as [Hc _]. rewrite Hp in Hc. simpl in Hc.
    rewrite IH. change (calls (Enhanced.log_analysis_failed p error w')) with (calls w').
    rewrite Hc, fmap_cons. simpl. by rewrite <- app_assoc.
Qed.

(** X22.  When the analysis function makes the requests [ask p] for
    provider [p], a consensus call makes the requests of every listed
    provider, in list order and whether or not earlier ones failed, and
    after them one synthesis request to openai exactly when two or more
    analyses succeeded. *)
Theorem consensus_request_log (content analysisType : string)
    (providers : list AIProvider) (w : World) :
  (∀ p, makes_requests (analysisFunction content p) (ask p)) →
  ∃ analyses w1,
    Enhanced.collect analysisFunction content providers w analyses w1 ∧
    calls (snd (Enhanced.multiProviderConsensus JSON_parse JSON_stringify analysisFunction
                  content analysisType providers w))
    = calls w ++ mjoin (ask <$> providers) ++
      match analyses with
      | _ :: _ :: _ =>
          [(openai, Enhanced.consensusPrompt JSON_stringify content analysisType analyses)]
      | _ => []
      end.
Proof.
  intros Hask.
  destruct (ConsensusFacts.loop_collect analysisFunction content providers [] w)
    as (analyses & w1 & Hfold & Hc).
  exists analyses, w1. split; [done|].
  pose proof (collect_requests _ _ _ _ _ Hask Hc) as Hcalls.
  unfold Enhanced.multiProviderConsensus. rewrite Hfold. cbn [app].
  destruct analyses as [|[p a] [|pa analyses]]; cbn [snd].
  - by rewrite app_nil_r.
  - by rewrite app_nil_r.
  - destruct (ConsensusFacts.synthesis_requests JSON_parse
                (Enhanced.consensusPrompt JSON_stringify content analysisType
                   ((p, a) :: pa :: analyses)) w1) as [Hs _].
    rewrite Hs, Hcalls. by rewrite <- app_assoc.
Qed.

End consensus_log.

Lemma no_binding (key : string) (fields : list (string * JSON)) :
  Forall (λ binding, binding.1 ≠ key) fields →
  filter (λ binding : string * JSON, binding.1 = key) fields = [].
Proof.
  induction 1 as [|b fields Hb _ IH]; [done|]. by rewrite filter_cons_False.
Qed.

(** X23.  [reviewChangesWithInstructions] asks the provider once.  When
    the reply is JSON without a usable list under the key changes, be it
    an object without that key or with a falsy value there, or a number,
    a string or an array, the changes passed in come back unreviewed;
    when the reply is the JSON value null the call throws. *)
Theorem reviewChanges_default (changes : list JSON) (instructions : string)
    (provider : AIProvider) (w w1 : World) (result : JSON) :
  Enhanced.getAIResponse JSON_parse (reviewPrompt JSON_stringify changes instructions)
    provider 0.1 true w = (Ok result, w1) →
  calls w1 = calls w ++ asks (reviewPrompt JSON_stringify changes instructions) provider ∧
  match get_property result "changes" with
  | Throw e =>
      result = JNull ∧
      reviewChangesWithInstructions JSON_parse JSON_stringify changes instructions provider w
      = (Throw e, w1)
  | Ok reviewed =>
      reviewChangesWithInstructions JSON_parse JSON_stringify changes instructions provider w
      = (Ok (if truthy reviewed then default JNull reviewed else JArray changes), w1) ∧
      (¬ (∃ fields, result = JObject fields) → reviewed = None) ∧
      (∀ fields, result = JObject fields →
                 Forall (λ binding, binding.1 ≠ "changes") fields → reviewed = None)
  end.
Proof.
  intros Hres. split.
  - destruct (enhanced_requests (reviewPrompt JSON_stringify changes instructions)
                provider 0.1 true w) as [Hc _].
    by rewrite Hres in Hc.
  - unfold reviewChangesWithInstructions, mbind, M_bind, bind. rewrite Hres.
    destruct (get_property result "changes") as [reviewed|e] eqn:Hget.
    + split_and!; [done| |].
      * intros Hno. destruct result; simpl in Hget; try by simplify_eq.
        exfalso. apply Hno. eauto.
      * intros fields -> Hall. simpl in Hget. simplify_eq.
        by rewrite (no_binding "changes" fields Hall).
    + split; [|done]. by destruct result.
Qed.

Section verification_order.
Context (analysisFunction : string → AIProvider → M JSON).
Context (spread_with_metadata : JSON → JSON → JSON) (timestamp : string).

(** X24.  [enhancedAnalysisWithVerification] asks for verification only
    after the primary analysis succeeded: when the primary analysis
    throws, its error is the outcome and nothing more is requested; else
    the only further request goes to the verification provider, whichever
    it is (nothing requires it to differ from the primary one), and a value
    is returned only if that verification succeeded, being its reply with
    the metadata added. *)
Theorem verification_follows_primary (content analysisType : string)
    (primaryProvider verificationProvider : AIProvider) (w : World) :
  let outcome := enhancedAnalysisWithVerification JSON_parse JSON_stringify analysisFunction
                   spread_with_metadata timestamp content analysisType
                   primaryProvider verificationProvider w in
  match analysisFunction content primaryProvider w with
  | (Throw e, w1) => outcome = (Throw e, w1)
  | (Ok initialAnalysis, w1) =>
      calls (snd outcome) =
        calls w1 ++ asks (crossVerifyPrompt JSON_stringify initialAnalysis analysisType content)
                         verificationProvider ∧
      match crossVerifyAnalysis JSON_parse JSON_stringify initialAnalysis analysisType content
              primaryProvider verificationProvider w1 with
      | (Throw e, w2) => outcome = (Throw e, w2)
      | (Ok verified, w2) =>
          outcome = (Ok (spread_with_metadata verified
                           (metadata timestamp primaryProvider verificationProvider
                              analysisType)), w2)
      end
  end.
Proof.
  intros outcome. subst outcome.
  unfold enhancedAnalysisWithVerification, mbind, M_bind, bind.
  destruct (analysisFunction content primaryProvider w) as [[a|e] w1]; [|done].
  pose proof (enhanced_requests (crossVerifyPrompt JSON_stringify a analysisType content)
                verificationProvider 0.3 true w1) as [Hc _].
  unfold crossVerifyAnalysis in *.
  destruct (Enhanced.getAIResponse JSON_parse _ verificationProvider 0.3 true w1)
    as [[v|e] w2]; done.
Qed.

End verification_order.

End service_facts.

Lemma missing_reply_text_witness :
  let w := mkWorld None (λ _ _ _, Text None) [] [] in
  fst (Gateway.getAIResponse_switch JSON_parse_sample "p" openai w) = Ok (JObject []) ∧
  fst (Gateway.getAIResponse_switch JSON_parse_sample "p" google w) = Throw parse_failure.
Proof.
  intros w. split.
  - destruct (missing_reply_text JSON_parse_sample "p" openai w eq_refl) as [H _].
    destruct (H eq_refl) as [_ Hv]. by rewrite (Hv (JObject []) eq_refl).
  - destruct (missing_reply_text JSON_parse_sample "p" google w eq_refl) as [_ H].
    by rewrite (H eq_refl).
Defined.

Lemma enhanced_getAIResponse_no_fallback_witness :
  let w := mkWorld (Some "key") (λ _ _ _, Throws (mkError "ECONNRESET")) [] [] in
  Enhanced.getAIResponse JSON_parse_sample "p" perplexity 0.3 true w =
    (Throw (mkError "Unsupported AI provider: perplexity"), w) ∧
  Enhanced.getAIResponse JSON_parse_sample "p" openai 0.3 true w =
    (Throw (mkError "ECONNRESET"), mkWorld (Some "key") (sdk w) [(openai, "p")] []).
Proof.
  intros w.
  destruct (enhanced_getAIResponse_no_fallback JSON_parse_sample "p" perplexity 0.3 true w)
    as (_ & H1 & _).
  destruct (enhanced_getAIResponse_no_fallback JSON_parse_sample "p" openai 0.3 true w)
    as (_ & _ & H2).
  split; [by apply H1|by apply H2].
Defined.

Lemma consensus_request_log_witness :
  let w := mkWorld None
             (λ n _ _, if n =? 0 then Throws (mkError "503") else Text (Some "{}")) [] [] in
  let analysisFunction := analyzeMetaphors JSON_parse_sample in
  ∃ analyses w1,
    Enhanced.collect analysisFunction "text" [openai; perplexity; google; cohere] w analyses w1 ∧
    calls (snd (Enhanced.multiProviderConsensus JSON_parse_sample (λ _, "[]") analysisFunction
                  "text" "metaphor" [openai; perplexity; google; cohere] w))
    = calls w ++ mjoin (asks (metaphorPrompt "text") <$> [openai; perplexity; google; cohere]) ++
      match analyses with
      | _ :: _ :: _ =>
          [(openai, Enhanced.consensusPrompt (λ _, "[]") "text" "metaphor" analyses)]
      | _ => []
      end.
Proof.
  intros w analysisFunction.
  apply (consensus_request_log JSON_parse_sample (λ _, "[]") analysisFunction
           (asks (metaphorPrompt "text")) "text" "metaphor").
  intros p. apply enhanced_requests.
Defined.

Lemma reviewChanges_default_witness :
  let w := mkWorld None (λ _ _ _, Text (Some "{}")) [] [] in
  let changes := [JObject [("id", JString "1"); ("status", JString "pending")]] in
  let w1 := mkWorld None (sdk w) [(openai, reviewPrompt (λ _, "[]") changes "be brief")] [] in
  reviewChangesWithInstructions JSON_parse_sample (λ _, "[]") changes "be brief" openai w
  = (Ok (JArray changes), w1).
Proof.
  intros w changes w1.
  destruct (reviewChanges_default JSON_parse_sample (λ _, "[]") changes "be brief" openai
              w w1 (JObject []) eq_refl) as [_ H].
  simpl in H. by destruct H as [H _].
Defined.

End ServiceFacts.
